(** * ExcelMind: multi-table store, join engine, upload gate and config expansion

    Shallow embedding of the ExcelMind service.  The HTTP handlers of
    [src/excel_agent/api.py] and the configuration helpers of
    [src/excel_agent/config.py] are translated from the source.  The
    multi-table manager they call ([excel_loader.MultiExcelLoader]: the table
    store, its join engine and the preview extractor) lives in a module that
    is not part of the sources; its behaviour is modelled from the spec, and
    every such definition says so in its doc comment. *)

From Stdlib Require Import List String Ascii ZArith QArith Bool Lia.
From Stdlib Require Import DecimalString DecimalNat.
Import ListNotations.

(** ** Cell values and join-key equality *)

Module Value.

(** Modelled from the spec (excel_loader, "closed tagged-variant value
    type"): a cell is null, a boolean, an integer, a float (a finite float
    is a rational number), a string or a date/time (a timestamp). *)
Inductive value : Type :=
| VNull
| VBool (b : bool)
| VInt (z : Z)
| VFloat (q : Q)
| VStr (s : string)
| VDate (d : Z).

(** Modelled from the spec (excel_loader, join key equality): null is
    never equal to anything; numbers compare numerically across int and
    float; strings, booleans and dates compare exactly; values of different
    semantic types are different. *)
Definition val_eq (a b : value) : bool :=
  match a, b with
  | VNull, _ | _, VNull => false
  | VBool x, VBool y => Bool.eqb x y
  | VInt x, VInt y => Z.eqb x y
  | VInt x, VFloat q => Qeq_bool (inject_Z x) q
  | VFloat q, VInt y => Qeq_bool q (inject_Z y)
  | VFloat p, VFloat q => Qeq_bool p q
  | VStr s, VStr t => String.eqb s t
  | VDate x, VDate y => Z.eqb x y
  | _, _ => false
  end.

(** Modelled from the spec (excel_loader, hashed join index): the
    normalised key a value is hashed under; null has no key, and a number is
    stored as a reduced fraction so that [1] and [1.0] share a key. *)
Inductive nkey : Type :=
| KBool (b : bool)
| KNum (q : Q)
| KStr (s : string)
| KDate (d : Z).

Definition norm (v : value) : option nkey :=
  match v with
  | VNull => None
  | VBool b => Some (KBool b)
  | VInt z => Some (KNum (Qred (inject_Z z)))
  | VFloat q => Some (KNum (Qred q))
  | VStr s => Some (KStr s)
  | VDate d => Some (KDate d)
  end.

Definition nkey_eqb (a b : nkey) : bool :=
  match a, b with
  | KBool x, KBool y => Bool.eqb x y
  | KNum p, KNum q => Z.eqb (Qnum p) (Qnum q) && Pos.eqb (Qden p) (Qden q)
  | KStr s, KStr t => String.eqb s t
  | KDate x, KDate y => Z.eqb x y
  | _, _ => false
  end.

End Value.

(** ** The join engine *)

Module Join.
Import Value.

(** Modelled from the spec (excel_loader, rows): a row maps column names to
    cells; reading a column the row lacks yields null. *)
Definition row := list (string * value).

Definition row_get (r : row) (c : string) : value :=
  match find (fun kv => String.eqb (fst kv) c) r with
  | Some (_, v) => v
  | None => VNull
  end.

(** Modelled from the spec (excel_loader, join types): the four recognised
    values of [join_type]; any other string is rejected. *)
Inductive join_type : Type := JInner | JLeft | JRight | JOuter.

Definition parse_join_type (s : string) : option join_type :=
  if String.eqb s "inner" then Some JInner
  else if String.eqb s "left" then Some JLeft
  else if String.eqb s "right" then Some JRight
  else if String.eqb s "outer" then Some JOuter
  else None.

Definition keeps_left (jt : join_type) : bool :=
  match jt with JLeft | JOuter => true | _ => false end.

Definition keeps_right (jt : join_type) : bool :=
  match jt with JRight | JOuter => true | _ => false end.

(** Modelled from the spec (excel_loader, row matching): two rows match
    when every positionally paired key column holds equal cells. *)
Fixpoint rows_match (keys1 keys2 : list string) (r1 r2 : row) : bool :=
  match keys1, keys2 with
  | k1 :: ks1, k2 :: ks2 =>
      val_eq (row_get r1 k1) (row_get r2 k2) && rows_match ks1 ks2 r1 r2
  | _, _ => true
  end.

(** One output row before materialisation: a matched pair, or an unmatched
    row of one side to be padded with nulls. *)
Inductive entry : Type :=
| Both (r1 r2 : row)
| LeftOnly (r1 : row)
| RightOnly (r2 : row).

(** Reference semantics in the spec's words (output row order): matched
    pairs in table1-outer / table2-inner loop order, then the unmatched left
    rows (left, outer), then the unmatched right rows (right, outer). *)
Definition join_nested (jt : join_type) (keys1 keys2 : list string)
    (t1 t2 : list row) : list entry :=
  let m := rows_match keys1 keys2 in
  flat_map (fun r1 => map (Both r1) (filter (m r1) t2)) t1
  ++ (if keeps_left jt
      then map LeftOnly (filter (fun r1 => negb (existsb (m r1) t2)) t1)
      else [])
  ++ (if keeps_right jt
      then map RightOnly
             (filter (fun r2 => negb (existsb (fun r1 => m r1 r2) t1)) t2)
      else []).

(** *** Hashed index over table2 *)

(** Modelled from the spec (excel_loader, "keys are hashed into an index
    before probing"): the key tuple of a row, absent when a key cell is null. *)
Fixpoint key_of (keys : list string) (r : row) : option (list nkey) :=
  match keys with
  | [] => Some []
  | k :: ks =>
      match norm (row_get r k), key_of ks r with
      | Some a, Some b => Some (a :: b)
      | _, _ => None
      end
  end.

Fixpoint keys_eqb (a b : list nkey) : bool :=
  match a, b with
  | [], [] => true
  | x :: xs, y :: ys => nkey_eqb x y && keys_eqb xs ys
  | _, _ => false
  end.

(** Buckets of (position in table2, row), in table2 order. *)
Definition index := list (list nkey * list (nat * row)).

Fixpoint idx_add (k : list nkey) (e : nat * row) (idx : index) : index :=
  match idx with
  | [] => [(k, [e])]
  | (k', es) :: rest =>
      if keys_eqb k k' then (k', e :: es) :: rest
      else (k', es) :: idx_add k e rest
  end.

Fixpoint idx_find (k : list nkey) (idx : index) : list (nat * row) :=
  match idx with
  | [] => []
  | (k', es) :: rest => if keys_eqb k k' then es else idx_find k rest
  end.

Fixpoint build_index (keys2 : list string) (l : list (nat * row)) : index :=
  match l with
  | [] => []
  | (j, r) :: rest =>
      let idx := build_index keys2 rest in
      match key_of keys2 r with
      | Some k => idx_add k (j, r) idx
      | None => idx
      end
  end.

Fixpoint enum_from (n : nat) (l : list row) : list (nat * row) :=
  match l with
  | [] => []
  | r :: rs => (n, r) :: enum_from (S n) rs
  end.

Definition probe (keys1 : list string) (idx : index) (r1 : row)
    : list (nat * row) :=
  match key_of keys1 r1 with
  | Some k => idx_find k idx
  | None => []
  end.

(** Modelled from the spec (excel_loader, join engine): index table2, probe
    it with every table1 row in order, remember which table2 positions were
    hit, then append the unmatched rows the join type keeps. *)
Definition join_engine (jt : join_type) (keys1 keys2 : list string)
    (t1 t2 : list row) : list entry :=
  let e2 := enum_from 0 t2 in
  let idx := build_index keys2 e2 in
  let hits := map (fun r1 => (r1, probe keys1 idx r1)) t1 in
  let matched :=
    flat_map (fun h => map (fun p => Both (fst h) (snd p)) (snd h)) hits in
  let used := flat_map (fun h => map fst (snd h)) hits in
  let unmatched_left :=
    flat_map (fun h => match snd h with
                       | [] => [LeftOnly (fst h)]
                       | _ :: _ => []
                       end) hits in
  let unmatched_right :=
    flat_map (fun p => if existsb (Nat.eqb (fst p)) used then []
                       else [RightOnly (snd p)]) e2 in
  matched
  ++ (if keeps_left jt then unmatched_left else [])
  ++ (if keeps_right jt then unmatched_right else []).

End Join.

(** ** Tables and the table store *)

Module Store.
Import Value Join.

(** Modelled from the spec (excel_loader, Table): display name, provenance
    label, ordered column names and ordered rows. *)
Record table : Type := mk_table {
  tbl_name : string;
  tbl_source : string;
  tbl_columns : list string;
  tbl_rows : list row
}.

Definition join_type_name (jt : join_type) : string :=
  match jt with
  | JInner => "inner" | JLeft => "left" | JRight => "right" | JOuter => "outer"
  end.

(** *** Output column naming *)

Definition show_nat (n : nat) : string :=
  NilEmpty.string_of_uint (Nat.to_uint n).

Definition suffixed (c : string) (n : nat) : string :=
  (c ++ "_" ++ show_nat n)%string.

(** Modelled from the spec (excel_loader, column collision rule): the first
    of [c_2], [c_3], ... that is not taken. *)
Fixpoint fresh_from (c : string) (taken : list string) (n fuel : nat)
    : string :=
  match fuel with
  | O => c
  | S f =>
      let cand := suffixed c n in
      if existsb (String.eqb cand) taken then fresh_from c taken (S n) f
      else cand
  end.

Definition fresh_name (c : string) (taken : list string) : string :=
  fresh_from c taken 2 (S (List.length taken)).

(** A table2 column keeps its name unless table1 has it; then it gets a
    suffix that avoids every table1 and table2 name and every name already
    given. *)
Fixpoint rename_from (cols1 all2 assigned cols2 : list string)
    : list string :=
  match cols2 with
  | [] => []
  | c :: cs =>
      let c' := if existsb (String.eqb c) cols1
                then fresh_name c (cols1 ++ all2 ++ assigned)
                else c in
      c' :: rename_from cols1 all2 (assigned ++ [c']) cs
  end.

Definition rename_columns (cols1 cols2 : list string) : list string :=
  rename_from cols1 cols2 [] cols2.

Definition join_columns (cols1 cols2 : list string) : list string :=
  cols1 ++ rename_columns cols1 cols2.

(** *** Materialising the joined rows *)

Definition side (o : option row) (c : string) : value :=
  match o with Some r => row_get r c | None => VNull end.

Definition out_row (cols1 cols2 renamed : list string) (o1 o2 : option row)
    : row :=
  map (fun c => (c, side o1 c)) cols1
  ++ map (fun cc => (snd cc, side o2 (fst cc))) (combine cols2 renamed).

Definition materialize (cols1 cols2 : list string) (e : entry) : row :=
  let renamed := rename_columns cols1 cols2 in
  match e with
  | Both r1 r2 => out_row cols1 cols2 renamed (Some r1) (Some r2)
  | LeftOnly r1 => out_row cols1 cols2 renamed (Some r1) None
  | RightOnly r2 => out_row cols1 cols2 renamed None (Some r2)
  end.

(** *** Errors, validation and the join as a table operation *)

Inductive error : Type :=
| IngestionError
| NotFoundError
| ValidationError
| InternalError.

Inductive result (A : Type) : Type :=
| Ok (a : A)
| Err (e : error).
Arguments Ok {A} a.
Arguments Err {A} e.

Definition has_column (t : table) (k : string) : bool :=
  existsb (String.eqb k) (tbl_columns t).

(** Modelled from the spec (excel_loader, join validation). *)
Definition validate_join (t1 t2 : table) (keys1 keys2 : list string)
    (join_type_str : string) : result join_type :=
  if negb (Nat.eqb (List.length keys1) (List.length keys2))
  then Err ValidationError
  else
    match keys1 with
    | [] => Err ValidationError
    | _ :: _ =>
        if forallb (has_column t1) keys1 && forallb (has_column t2) keys2
        then match parse_join_type join_type_str with
             | Some jt => Ok jt
             | None => Err ValidationError
             end
        else Err ValidationError
    end.

(** Modelled from the spec (excel_loader, join result table). *)
Definition join_table (t1 t2 : table) (keys1 keys2 : list string)
    (jt : join_type) (new_name : string) : table :=
  {| tbl_name := new_name;
     tbl_source := ("join:" ++ join_type_name jt)%string;
     tbl_columns := join_columns (tbl_columns t1) (tbl_columns t2);
     tbl_rows := map (materialize (tbl_columns t1) (tbl_columns t2))
                     (join_engine jt keys1 keys2 (tbl_rows t1) (tbl_rows t2))
  |}.

(** *** Structure and preview *)

Record structure : Type := mk_structure {
  st_source : string;
  st_total_rows : nat;
  st_total_columns : nat;
  st_columns : list string
}.

Definition structure_of (t : table) : structure :=
  {| st_source := tbl_source t;
     st_total_rows := List.length (tbl_rows t);
     st_total_columns := List.length (tbl_columns t);
     st_columns := tbl_columns t |}.

(** [ExcelConfig] of config.py, with its defaults. *)
Record ExcelConfig : Type := mk_excel_config {
  max_preview_rows : Z;
  default_result_limit : Z;
  max_result_limit : Z
}.

Definition default_ExcelConfig : ExcelConfig :=
  {| max_preview_rows := 5%Z;
     default_result_limit := 20%Z;
     max_result_limit := 1000%Z |}.

(** Modelled from the spec (excel_loader, preview): the first [max_rows]
    rows in table order. *)
Definition preview (t : table) (max_rows : nat) : list row :=
  firstn max_rows (tbl_rows t).

Definition preview_default (cfg : ExcelConfig) (t : table) : list row :=
  preview t (Z.to_nat (max_preview_rows cfg)).

(** *** The store *)

(** Modelled from the spec (excel_loader, Table Store): tables in insertion
    order under fresh ids, the optional active id, and the id counter. *)
Record store : Type := mk_store {
  tables : list (nat * table);
  active_id : option nat;
  next_id : nat
}.

Definition empty_store : store := mk_store [] None 0.

Definition lookup (id : nat) (tbls : list (nat * table)) : option table :=
  match find (fun p => Nat.eqb (fst p) id) tbls with
  | Some (_, t) => Some t
  | None => None
  end.

Definition opt_nat_eqb (a b : option nat) : bool :=
  match a, b with
  | Some x, Some y => Nat.eqb x y
  | None, None => true
  | _, _ => false
  end.

(** Modelled from the spec (add_table): the ingestion result is stored
    under a fresh id, which becomes active when no table is active. *)
Definition add_table (s : store) (src : result table)
    : store * result (nat * structure) :=
  match src with
  | Err e => (s, Err e)
  | Ok t =>
      let id := next_id s in
      (mk_store (tables s ++ [(id, t)])
                (match active_id s with
                 | None => Some id
                 | Some a => Some a
                 end)
                (S id),
       Ok (id, structure_of t))
  end.

(** Modelled from the spec (remove_table). *)
Definition remove_table (s : store) (id : nat) : store * bool :=
  match lookup id (tables s) with
  | None => (s, false)
  | Some _ =>
      (mk_store (filter (fun p => negb (Nat.eqb (fst p) id)) (tables s))
                (if opt_nat_eqb (active_id s) (Some id) then None
                 else active_id s)
                (next_id s),
       true)
  end.

(** Modelled from the spec (set_active). *)
Definition set_active (s : store) (id : nat) : store * bool :=
  match lookup id (tables s) with
  | None => (s, false)
  | Some _ => (mk_store (tables s) (Some id) (next_id s), true)
  end.

(** Modelled from the spec (join_tables): look both tables up, validate,
    compute the join and only then register the result; the active id is
    left alone. *)
Definition join_tables (s : store) (table1_id table2_id : nat)
    (keys1 keys2 : list string) (join_type new_name : string)
    : store * result (nat * structure) :=
  match lookup table1_id (tables s), lookup table2_id (tables s) with
  | Some t1, Some t2 =>
      match validate_join t1 t2 keys1 keys2 join_type with
      | Err e => (s, Err e)
      | Ok jt =>
          let t := join_table t1 t2 keys1 keys2 jt new_name in
          let id := next_id s in
          (mk_store (tables s ++ [(id, t)]) (active_id s) (S id),
           Ok (id, structure_of t))
      end
  | _, _ => (s, Err NotFoundError)
  end.

(** Modelled from the spec (reset): no tables, no active table; ids are
    still never reused. *)
Definition reset (s : store) : store := mk_store [] None (next_id s).

Definition get_active (s : store) : option table :=
  match active_id s with
  | Some id => lookup id (tables s)
  | None => None
  end.

Inductive op : Type :=
| OpAdd (src : result table)
| OpRemove (id : nat)
| OpSetActive (id : nat)
| OpJoin (id1 id2 : nat) (keys1 keys2 : list string) (jt name : string)
| OpReset.

Definition exec (s : store) (o : op) : store :=
  match o with
  | OpAdd src => fst (add_table s src)
  | OpRemove id => fst (remove_table s id)
  | OpSetActive id => fst (set_active s id)
  | OpJoin id1 id2 k1 k2 jt nm => fst (join_tables s id1 id2 k1 k2 jt nm)
  | OpReset => reset s
  end.

Definition run (s : store) (ops : list op) : store := fold_left exec ops s.

Definition active_ok (s : store) : Prop :=
  match active_id s with
  | None => True
  | Some id => lookup id (tables s) <> None
  end.

End Store.

(** ** HTTP upload handler (api.py, [upload_excel]) *)

Module Api.
Import Value Join Store.
Local Open Scope string_scope.

(** [PurePosixPath(filename).name]: the last path component, where empty
    and "." components are dropped. *)
Fixpoint split_on (sep : ascii) (s : string) : list string :=
  match s with
  | EmptyString => [EmptyString]
  | String c r =>
      match split_on sep r with
      | [] => []
      | w :: ws =>
          if Ascii.eqb c sep then EmptyString :: w :: ws
          else String c w :: ws
      end
  end.

Definition path_name (filename : string) : string :=
  last (filter (fun part => negb (String.eqb part "" || String.eqb part "."))
               (split_on "/" filename)) "".

(** [name.rfind('.')] *)
Fixpoint rfind_from (c : ascii) (s : string) (i : nat) : option nat :=
  match s with
  | EmptyString => None
  | String a r =>
      match rfind_from c r (S i) with
      | Some j => Some j
      | None => if Ascii.eqb a c then Some i else None
      end
  end.

(** [PurePath.suffix]: from the last dot of the name, when that dot is
    neither the first nor the last character. *)
Definition path_suffix (filename : string) : string :=
  let name := path_name filename in
  match rfind_from "." name 0 with
  | Some i =>
      if Nat.ltb 0 i && Nat.ltb i (String.length name - 1)
      then substring i (String.length name - i) name
      else ""
  | None => ""
  end.

(** [str.lower] on the ASCII range, which is all the suffix test compares
    against; strings are byte strings here. *)
Definition lower_char (c : ascii) : ascii :=
  let n := nat_of_ascii c in
  if Nat.leb 65 n && Nat.leb n 90 then ascii_of_nat (n + 32) else c.

Fixpoint lower (s : string) : string :=
  match s with
  | EmptyString => EmptyString
  | String c r => String (lower_char c) (lower r)
  end.

Definition allowed_suffixes : list string := [".xlsx"; ".xls"; ".xlsm"].

(** The process state the handler touches: the table store, the files on
    disk it created, and the temporary-name counter. *)
Record world : Type := mk_world {
  w_store : store;
  w_files : list string;
  w_tmp_counter : nat
}.

Inductive response : Type :=
| Response (status_code : nat) (table_id : option nat).

Definition tmp_name (n : nat) (suffix : string) : string :=
  "/tmp/tmp" ++ show_nat n ++ suffix.

(** [table_info.filename = file.filename] *)
Definition set_table_name (s : store) (id : nat) (name : string) : store :=
  mk_store (map (fun p => if Nat.eqb (fst p) id
                          then (fst p, {| tbl_name := name;
                                          tbl_source := tbl_source (snd p);
                                          tbl_columns := tbl_columns (snd p);
                                          tbl_rows := tbl_rows (snd p) |})
                          else p) (tables s))
           (active_id s) (next_id s).

(** [upload_excel]: [ingest] stands for the loader's parse of the saved
    temporary file; an exception anywhere in the [try] block yields 500 and
    unlinks the temporary file. *)
Definition upload_excel (ingest : string -> option string -> result table)
    (filename : option string) (sheet_name : option string) (w : world)
    : world * response :=
  match filename with
  | None => (w, Response 400 None)
  | Some fn =>
      if String.eqb fn "" then (w, Response 400 None)
      else
        let suffix := lower (path_suffix fn) in
        if negb (existsb (String.eqb suffix) allowed_suffixes)
        then (w, Response 400 None)
        else
          let tmp_path := tmp_name (w_tmp_counter w) suffix in
          let files := app (w_files w) [tmp_path] in
          let counter := S (w_tmp_counter w) in
          match add_table (w_store w) (ingest tmp_path sheet_name) with
          | (s', Ok (id, _)) =>
              (mk_world (set_table_name s' id fn) files counter,
               Response 200 (Some id))
          | (s', Err _) =>
              (mk_world s' (remove string_dec tmp_path files) counter,
               Response 500 None)
          end
  end.

End Api.

(** ** Configuration (config.py) *)

Module Config.

(** A Python [str] is a sequence of Unicode code points. *)
Definition text : Type := list N.

(** A text written with ASCII characters. *)
Definition txt (s : string) : text := map N_of_ascii (list_ascii_of_string s).

Definition dollar : N := 36%N.
Definition lbrace : N := 123%N.
Definition rbrace : N := 125%N.

Fixpoint text_eqb (a b : text) : bool :=
  match a, b with
  | [], [] => true
  | x :: a', y :: b' => N.eqb x y && text_eqb a' b'
  | _, _ => false
  end.

Definition env := text -> option text.

(** [os.environ.get(env_var, "")] *)
Definition env_get (e : env) (v : text) : text :=
  match e v with Some x => x | None => [] end.

Inductive scan_state : Type :=
| Normal
| SawDollar
| SawBrace
| InName (w : text).

(** The text the scanner has read in a state and not yet given back. *)
Definition pending (st : scan_state) : text :=
  match st with
  | Normal => []
  | SawDollar => [dollar]
  | SawBrace => [dollar; lbrace]
  | InName w => dollar :: lbrace :: w
  end.

(** Parsed YAML values. *)
Local Unset Elimination Schemes.
Inductive cvalue : Type :=
| CStr (s : text)
| CDict (d : list (text * cvalue))
| CList (l : list cvalue)
| CInt (z : Z)
| CFloat (q : Q)
| CBool (b : bool)
| CNone.
Local Set Elimination Schemes.

Section Expand.

(** [\w] of the [str] pattern: Python's Unicode word characters
    ([str.isalnum()] or the underscore), taken from the Unicode database,
    which is not embedded here.  Every result below holds for whatever
    classification this is, given that "$" and "}" are not word
    characters, as they are not in Python. *)
Variable is_word_char : N -> bool.

(** [re.compile(r'\$\{(\w+)\}').sub(replacer, value)] as a left-to-right
    scanner: the state holds the part of a possible match read so far, and
    a failed match gives its text back unchanged. *)
Fixpoint expand_from (e : env) (st : scan_state) (s : text) : text :=
  match s with
  | [] =>
      match st with
      | Normal => []
      | SawDollar => [dollar]
      | SawBrace => [dollar; lbrace]
      | InName w => dollar :: lbrace :: w
      end
  | c :: r =>
      match st with
      | Normal =>
          if N.eqb c dollar then expand_from e SawDollar r
          else c :: expand_from e Normal r
      | SawDollar =>
          if N.eqb c lbrace then expand_from e SawBrace r
          else if N.eqb c dollar then dollar :: expand_from e SawDollar r
          else dollar :: c :: expand_from e Normal r
      | SawBrace =>
          if is_word_char c then expand_from e (InName [c]) r
          else if N.eqb c dollar then dollar :: lbrace :: expand_from e SawDollar r
          else dollar :: lbrace :: c :: expand_from e Normal r
      | InName w =>
          if is_word_char c then expand_from e (InName (w ++ [c])) r
          else if N.eqb c rbrace then env_get e w ++ expand_from e Normal r
          else if N.eqb c dollar
          then dollar :: lbrace :: w ++ expand_from e SawDollar r
          else dollar :: lbrace :: w ++ c :: expand_from e Normal r
      end
  end.

Definition _expand_env_vars (e : env) (value : text) : text :=
  expand_from e Normal value.

(** The loop body of [_process_config_dict] for one value: a string is
    expanded, a dict is processed recursively, anything else (lists
    included) is copied as it is. *)
Fixpoint process_value (e : env) (value : cvalue) : cvalue :=
  match value with
  | CStr s => CStr (_expand_env_vars e s)
  | CDict d =>
      CDict ((fix go (config : list (text * cvalue)) :=
                match config with
                | [] => []
                | (key, v) :: rest => (key, process_value e v) :: go rest
                end) d)
  | other => other
  end.

Definition _process_config_dict (e : env) (config : list (text * cvalue))
    : list (text * cvalue) :=
  map (fun kv => (fst kv, process_value e (snd kv))) config.

(** [load_config]: [exists_] and [read] stand for the file system and the
    YAML parse ([yaml.safe_load(f) or {}]); [package_config] is the path of
    the config.yaml three directories above the module.  The result is the
    processed dict, handed to [AppConfig] as keyword arguments, or the
    defaults. *)
Inductive loaded_config : Type :=
| FromFile (config_dict : list (text * cvalue))
| Defaults.

(** The truth value of a [str]: non-empty. *)
Definition truthy (s : text) : bool :=
  match s with [] => false | _ :: _ => true end.

Definition load_config (e : env) (exists_ : text -> bool)
    (read : text -> list (text * cvalue)) (package_config : text)
    (config_path : option text) : loaded_config :=
  let config_path :=
    match config_path with
    | None => find exists_ [txt "config.yaml"; package_config]
    | Some p => Some p
    end in
  match config_path with
  | Some p =>
      if truthy p && exists_ p
      then FromFile (_process_config_dict e (read p))
      else Defaults
  | None => Defaults
  end.

(** Reference semantics of [re.sub] for the pattern, following its
    documentation rather than the code above: scan left to right; where
    "$" "{" starts, the greedy [\w+] takes the longest run of word
    characters, and a match needs it non-empty and followed by "}"; a
    match is replaced by the variable's value and scanning resumes after
    it, otherwise one character is copied. *)
Fixpoint word_span (s : text) : text * text :=
  match s with
  | c :: r =>
      if is_word_char c then let (w, rest) := word_span r in (c :: w, rest)
      else ([], s)
  | [] => ([], [])
  end.

Definition match_at (s : text) : option (text * text) :=
  match s with
  | c1 :: c2 :: r =>
      if N.eqb c1 dollar && N.eqb c2 lbrace then
        match word_span r with
        | (w, c :: rest) =>
            if truthy w && N.eqb c rbrace then Some (w, rest) else None
        | (_, []) => None
        end
      else None
  | _ => None
  end.

Fixpoint sub_fuel (e : env) (n : nat) (s : text) : text :=
  match n with
  | O => s
  | S n' =>
      match s with
      | [] => []
      | c :: r =>
          match match_at s with
          | Some (w, rest) => env_get e w ++ sub_fuel e n' rest
          | None => c :: sub_fuel e n' r
          end
      end
  end.

Definition re_sub_spec (e : env) (s : text) : text :=
  sub_fuel e (List.length s) s.

End Expand.

End Config.

(** ** The other HTTP handlers (api.py) over the process state *)

Module Handlers.
Import Value Join Store Api.
Local Open Scope string_scope.

(** The Python exceptions the handlers tell apart. *)
Inductive py_exc : Type := FileNotFoundError | ValueError | OtherException.

Inductive py_result (A : Type) : Type :=
| PyOk (a : A)
| PyRaise (e : py_exc).
Arguments PyOk {A} a.
Arguments PyRaise {A} e.

(** A handler's answer: its JSON body, or an [HTTPException]. *)
Inductive reply (A : Type) : Type :=
| Reply (a : A)
| HttpError (status_code : nat).
Arguments Reply {A} a.
Arguments HttpError {A} status_code.

(** Modelled from the spec (list_tables): one summary per table, in
    insertion order, with its active flag. *)
Record table_summary : Type := mk_summary {
  ts_id : nat;
  ts_name : string;
  ts_total_rows : nat;
  ts_total_columns : nat;
  ts_is_active : bool
}.

Definition list_tables (s : store) : list table_summary :=
  map (fun p => {| ts_id := fst p;
                   ts_name := tbl_name (snd p);
                   ts_total_rows := List.length (tbl_rows (snd p));
                   ts_total_columns := List.length (tbl_columns (snd p));
                   ts_is_active := opt_nat_eqb (active_id s) (Some (fst p)) |})
      (tables s).

(** Modelled from the spec (loader state): the loader counts as loaded when
    it holds a table. *)
Definition is_loaded (s : store) : bool :=
  match tables s with [] => false | _ :: _ => true end.

(** Modelled from the spec (get): the column names of a table, empty for an
    unknown id. *)
Definition get_table_columns (s : store) (id : nat) : list string :=
  match lookup id (tables s) with Some t => tbl_columns t | None => [] end.

(** The process state: the upload world (store, files, temp counter) and
    the cached agent graph.  Of graph.py only its use shows here: the
    graph is built lazily by [get_graph] from the active table's data and
    dropped by [reset_graph]; the cache records the active id it was built
    for. *)
Record app : Type := mk_app {
  app_world : world;
  app_graph : option (option nat)
}.

Definition app_store (a : app) : store := w_store (app_world a).

Definition with_store (a : app) (s : store) : app :=
  mk_app (mk_world s (w_files (app_world a)) (w_tmp_counter (app_world a)))
         (app_graph a).

Definition reset_graph (a : app) : app := mk_app (app_world a) None.

Definition get_graph (a : app) : app * option nat :=
  match app_graph a with
  | Some g => (a, g)
  | None =>
      let g := active_id (app_store a) in (mk_app (app_world a) (Some g), g)
  end.

Definition init_app : app := mk_app (mk_world empty_store [] 0) None.

(** [get_status] *)
Record status_response : Type := mk_status {
  excel_loaded : bool;
  status_tables : option (list table_summary);
  active_table_id : option nat;
  active_table : option structure
}.

Definition get_status (a : app) : status_response :=
  let s := app_store a in
  if negb (is_loaded s) then mk_status false None None None
  else mk_status true (Some (list_tables s)) (active_id s)
                 (option_map structure_of (get_active s)).

(** [set_active_table]; the preview uses the configured bound. *)
Definition set_active_table (cfg : ExcelConfig) (a : app) (table_id : nat)
    : app * reply (option structure * option (list row) * list table_summary) :=
  let (s', ok) := set_active (app_store a) table_id in
  if negb ok then (a, HttpError 404)
  else
    let act := get_active s' in
    (reset_graph (with_store a s'),
     Reply (option_map structure_of act,
            option_map (preview_default cfg) act,
            list_tables s')).

(** [delete_table] *)
Definition delete_table (a : app) (table_id : nat)
    : app * reply (list table_summary * option nat) :=
  let (s', ok) := remove_table (app_store a) table_id in
  if negb ok then (a, HttpError 404)
  else (reset_graph (with_store a s'), Reply (list_tables s', active_id s')).

(** [get_table_columns]: an empty column list is reported as 404. *)
Definition get_table_columns_h (a : app) (table_id : nat)
    : reply (nat * list string) :=
  match get_table_columns (app_store a) table_id with
  | [] => HttpError 404
  | cols => Reply (table_id, cols)
  end.

(** [join_tables]: [value_error e] says whether the loader signals [e] as a
    [ValueError] (400); any other exception is a 500. *)
Definition join_tables_h (value_error : error -> bool) (a : app)
    (table1_id table2_id : nat) (keys1 keys2 : list string)
    (join_type new_name : string)
    : app * reply (nat * structure * list table_summary) :=
  match join_tables (app_store a) table1_id table2_id keys1 keys2
                    join_type new_name with
  | (s', Ok (id, st)) =>
      (reset_graph (with_store a s'), Reply (id, st, list_tables s'))
  | (s', Err e) =>
      (with_store a s', HttpError (if value_error e then 400 else 500))
  end.

(** [suggest_join]: both tables must exist; the advisor gets their
    summaries (modelled from the spec as their structures) and any
    exception it raises, [ValueError] included, is a 500. *)
Definition suggest_join {A : Type}
    (advisor : structure -> structure -> py_result A) (a : app)
    (table1_id table2_id : nat) : reply A :=
  match lookup table1_id (tables (app_store a)),
        lookup table2_id (tables (app_store a)) with
  | Some t1, Some t2 =>
      match advisor (structure_of t1) (structure_of t2) with
      | PyOk x => Reply x
      | PyRaise _ => HttpError 500
      end
  | _, _ => HttpError 404
  end.

Definition load_error_code (e : py_exc) : nat :=
  match e with
  | FileNotFoundError => 404
  | ValueError => 400
  | OtherException => 500
  end.

(** [load_excel]: [ingest] is the loader's parse of the file; the preview
    is taken from the active table after the load. *)
Definition load_excel (cfg : ExcelConfig)
    (ingest : string -> option string -> py_result table) (a : app)
    (file_path : string) (sheet_name : option string)
    : app * reply (nat * structure * option (list row) * list table_summary) :=
  match ingest file_path sheet_name with
  | PyRaise e => (a, HttpError (load_error_code e))
  | PyOk t =>
      match add_table (app_store a) (Ok t) with
      | (s', Ok (id, st)) =>
          (reset_graph (with_store a s'),
           Reply (id, st, option_map (preview_default cfg) (get_active s'),
                  list_tables s'))
      | (s', Err _) => (with_store a s', HttpError 500)
      end
  end.

(** [upload_excel] with its [reset_graph] on success. *)
Definition upload_excel_h (ingest : string -> option string -> result table)
    (a : app) (filename : option string) (sheet_name : option string)
    : app * response :=
  let (w', r) := upload_excel ingest filename sheet_name (app_world a) in
  let 'Response code _ := r in
  if Nat.eqb code 200 then (mk_app w' None, r)
  else (mk_app w' (app_graph a), r).

(** [chat]: [invoke] runs the graph built for an active id on a message. *)
Definition chat (invoke : option nat -> string -> py_result string)
    (a : app) (message : string) : app * reply string :=
  if negb (is_loaded (app_store a)) then (a, HttpError 400)
  else
    let (a', g) := get_graph a in
    match invoke g message with
    | PyOk r => (a', Reply r)
    | PyRaise _ => (a', HttpError 500)
    end.

(** [chat_stream]: the table-info event, then the events of [stream_chat]. *)
Inductive stream_event : Type :=
| TableInfo (table_id : option nat)
| ChatEvent (payload : string).

Definition chat_stream (events : list string) (a : app)
    : reply (list stream_event) :=
  if negb (is_loaded (app_store a)) then HttpError 400
  else Reply (TableInfo (active_id (app_store a)) :: map ChatEvent events).

(** [reset] *)
Definition reset_h (a : app) : app :=
  reset_graph (with_store a (reset (app_store a))).

(** A request to the service, with the external collaborators fixed. *)
Inductive request : Type :=
| RStatus
| RSetActive (id : nat)
| RDelete (id : nat)
| RColumns (id : nat)
| RJoin (id1 id2 : nat) (keys1 keys2 : list string) (jt name : string)
| RSuggest (id1 id2 : nat)
| RLoad (path : string) (sheet : option string)
| RUpload (filename : option string) (sheet : option string)
| RChat (message : string)
| RStream
| RReset.

Section Serve.
Variable cfg : ExcelConfig.
Variable value_error : error -> bool.
Variable load_ingest : string -> option string -> py_result table.
Variable upload_ingest : string -> option string -> result table.
Variable invoke : option nat -> string -> py_result string.

Definition serve (a : app) (r : request) : app :=
  match r with
  | RStatus | RColumns _ | RSuggest _ _ | RStream => a
  | RSetActive id => fst (set_active_table cfg a id)
  | RDelete id => fst (delete_table a id)
  | RJoin i1 i2 k1 k2 jt nm => fst (join_tables_h value_error a i1 i2 k1 k2 jt nm)
  | RLoad p sh => fst (load_excel cfg load_ingest a p sh)
  | RUpload fn sh => fst (upload_excel_h upload_ingest a fn sh)
  | RChat m => fst (chat invoke a m)
  | RReset => reset_h a
  end.

Definition serve_all (a : app) (rs : list request) : app := fold_left serve rs a.

End Serve.

End Handlers.

(** ** The global configuration (config.py, [get_config] / [set_config]) *)

Module ConfigState.
Import Store.

Record ModelConfig : Type := mk_model_config {
  provider : string;
  model_name : string;
  api_key : string;
  base_url : option string;
  temperature : Q;
  max_tokens : Z
}.

Record ServerConfig : Type := mk_server_config { host : string; port : Z }.

Record AppConfig : Type := mk_app_config {
  model : ModelConfig;
  excel : ExcelConfig;
  server : ServerConfig
}.

(** The module-level [_config]; [load_config] is whatever the current
    files make of it, passed as [load]. *)
Definition get_config (load : AppConfig) (_config : option AppConfig)
    : option AppConfig * AppConfig :=
  match _config with
  | Some c => (_config, c)
  | None => (Some load, load)
  end.

Definition set_config (config : AppConfig) (_config : option AppConfig)
    : option AppConfig :=
  Some config.

End ConfigState.

(** ** Example data (the spec's join example) *)

Module Examples.
Import Value Join Store.
Local Open Scope string_scope.

Definition ex_table1 : table :=
  {| tbl_name := "table1"; tbl_source := "table1.xlsx:Sheet1";
     tbl_columns := ["id"; "name"];
     tbl_rows := [[("id", VInt 1); ("name", VStr "a")];
                  [("id", VInt 2); ("name", VStr "b")]] |}.

Definition ex_table2 : table :=
  {| tbl_name := "table2"; tbl_source := "table2.xlsx:Sheet1";
     tbl_columns := ["id"; "val"];
     tbl_rows := [[("id", VInt 2); ("val", VStr "x")];
                  [("id", VInt 3); ("val", VStr "y")]] |}.

(** Both tables loaded: table1 under id 0 (active), table2 under id 1. *)
Definition ex_ops : list op := [OpAdd (Ok ex_table1); OpAdd (Ok ex_table2)].

Definition ex_store : store := run empty_store ex_ops.

Definition ex_join (join_type : string) : store * result (nat * structure) :=
  join_tables ex_store 0 1 ["id"] ["id"] join_type "joined".

Definition ex_env : Config.env :=
  fun v => if Config.text_eqb v (Config.txt "HOME") then Some (Config.txt "/root")
           else None.

(** Python's [\w] on the code points up to U+00FF: ASCII letters, digits
    and underscore, the Latin-1 letters U+00C0 to U+00FF but for the signs
    U+00D7 and U+00F7, and U+00AA, U+00B2, U+00B3, U+00B5, U+00B9, U+00BA,
    U+00BC, U+00BD, U+00BE; no code point above is classified here. *)
Definition ex_is_word (n : N) : bool :=
  let n := N.to_nat n in
  (Nat.leb 48 n && Nat.leb n 57) || (Nat.leb 65 n && Nat.leb n 90)
  || (Nat.leb 97 n && Nat.leb n 122) || Nat.eqb n 95
  || existsb (Nat.eqb n) [170; 178; 179; 181; 185; 186; 188; 189; 190]%nat
  || (Nat.leb 192 n && Nat.leb n 255 && negb (Nat.eqb n 215)
      && negb (Nat.eqb n 247)).


(** Collaborators for the handler examples: the loader parses the two
    example files, and an upload always yields table2. *)
Definition ex_load_ingest (path : string) (sheet : option string)
    : Handlers.py_result table :=
  if String.eqb path "table1.xlsx" then Handlers.PyOk ex_table1
  else if String.eqb path "table2.xlsx" then Handlers.PyOk ex_table2
  else Handlers.PyRaise Handlers.FileNotFoundError.

Definition ex_upload_ingest (path : string) (sheet : option string)
    : result table :=
  Ok ex_table2.

Definition ex_invoke (g : option nat) (message : string)
    : Handlers.py_result string :=
  Handlers.PyOk message.

Definition ex_value_error (e : error) : bool :=
  match e with ValidationError | NotFoundError => true | _ => false end.

Definition ex_requests : list Handlers.request :=
  [Handlers.RLoad "table1.xlsx" None; Handlers.RLoad "table2.xlsx" None].

Definition ex_app : Handlers.app :=
  Handlers.serve_all default_ExcelConfig ex_value_error ex_load_ingest
    ex_upload_ingest ex_invoke Handlers.init_app ex_requests.

End Examples.

(** * Proofs *)

Module ValueFacts.
Import Value.

Lemma nkey_eqb_eq (a b : nkey) : nkey_eqb a b = true <-> a = b.
Proof.
  destruct a as [x|[xn xd]|x|x], b as [y|[yn yd]|y|y]; simpl;
    split; intro H; try discriminate.
  - apply Bool.eqb_prop in H; subst; reflexivity.
  - inversion H; subst; apply Bool.eqb_reflx.
  - apply andb_true_iff in H as [H1 H2].
    apply Z.eqb_eq in H1; apply Pos.eqb_eq in H2; subst; reflexivity.
  - inversion H; subst; rewrite Z.eqb_refl, Pos.eqb_refl; reflexivity.
  - apply String.eqb_eq in H; subst; reflexivity.
  - inversion H; subst; apply String.eqb_refl.
  - apply Z.eqb_eq in H; subst; reflexivity.
  - inversion H; subst; apply Z.eqb_refl.
Qed.

Lemma Qeq_bool_red (p q : Q) : Qeq_bool p q = true <-> Qred p = Qred q.
Proof.
  rewrite Qeq_bool_iff; split; intro H.
  - apply Qred_complete; exact H.
  - rewrite <- (Qred_correct p), <- (Qred_correct q), H; reflexivity.
Qed.

(** Equality of cells is equality of their normalised keys. *)
Lemma val_eq_norm (a b : value) :
  val_eq a b = true <-> exists k, norm a = Some k /\ norm b = Some k.
Proof.
  split.
  - destruct a, b; intro H; cbn [val_eq] in H; try discriminate;
      cbn [norm].
    + apply Bool.eqb_prop in H; subst; eauto.
    + apply Z.eqb_eq in H; subst; eauto.
    + apply Qeq_bool_red in H; rewrite H; eauto.
    + apply Qeq_bool_red in H; rewrite H; eauto.
    + apply Qeq_bool_red in H; rewrite H; eauto.
    + apply String.eqb_eq in H; subst; eauto.
    + apply Z.eqb_eq in H; subst; eauto.
  - intros [k [Ha Hb]].
    destruct a, b; cbn [norm val_eq] in *; try discriminate;
      rewrite <- Ha in Hb; try discriminate; injection Hb as Hb.
    + subst; apply Bool.eqb_reflx.
    + apply Z.eqb_eq. symmetry.
      apply inject_Z_injective, Qeq_bool_iff, Qeq_bool_red; exact Hb.
    + apply Qeq_bool_red; symmetry; exact Hb.
    + apply Qeq_bool_red; symmetry; exact Hb.
    + apply Qeq_bool_red; symmetry; exact Hb.
    + subst; apply String.eqb_refl.
    + subst; apply Z.eqb_refl.
Qed.

End ValueFacts.

Module JoinFacts.
Import Value ValueFacts Join.
Local Open Scope nat_scope.

Lemma val_eq_by_norm (a b : value) :
  val_eq a b =
  match norm a, norm b with
  | Some x, Some y => nkey_eqb x y
  | _, _ => false
  end.
Proof.
  destruct (val_eq a b) eqn:E.
  - apply val_eq_norm in E as [k [Ha Hb]]. rewrite Ha, Hb.
    symmetry; apply nkey_eqb_eq; reflexivity.
  - destruct (norm a) as [x|] eqn:Ha, (norm b) as [y|] eqn:Hb; auto.
    destruct (nkey_eqb x y) eqn:Exy; auto.
    apply nkey_eqb_eq in Exy; subst.
    assert (val_eq a b = true) by (apply val_eq_norm; eauto).
    congruence.
Qed.

Lemma keys_eqb_eq (a b : list nkey) : keys_eqb a b = true <-> a = b.
Proof.
  revert b; induction a as [|x xs IH]; intros [|y ys]; simpl;
    split; intro H; try discriminate; auto.
  - apply andb_true_iff in H as [H1 H2].
    apply nkey_eqb_eq in H1; apply IH in H2; subst; reflexivity.
  - inversion H; subst. apply andb_true_iff; split.
    + apply nkey_eqb_eq; reflexivity.
    + apply IH; reflexivity.
Qed.

Lemma keys_eqb_refl (a : list nkey) : keys_eqb a a = true.
Proof. apply keys_eqb_eq; reflexivity. Qed.

(** Matching rows is equality of their key tuples. *)
Lemma rows_match_key (keys1 keys2 : list string) (r1 r2 : row) :
  List.length keys1 = List.length keys2 ->
  rows_match keys1 keys2 r1 r2 =
  match key_of keys1 r1, key_of keys2 r2 with
  | Some a, Some b => keys_eqb a b
  | _, _ => false
  end.
Proof.
  revert keys2; induction keys1 as [|k1 ks1 IH]; intros [|k2 ks2] Hlen;
    simpl in Hlen; try discriminate; simpl; auto.
  injection Hlen as Hlen. rewrite (IH ks2 Hlen), val_eq_by_norm.
  destruct (norm (row_get r1 k1)), (norm (row_get r2 k2)),
    (key_of ks1 r1), (key_of ks2 r2); simpl;
    rewrite ?andb_false_r; reflexivity.
Qed.

Lemma idx_find_add (k k' : list nkey) (e : nat * row) (idx : index) :
  idx_find k (idx_add k' e idx) =
  if keys_eqb k k' then e :: idx_find k idx else idx_find k idx.
Proof.
  induction idx as [|[k0 es] idx IH]; simpl.
  - destruct (keys_eqb k k'); reflexivity.
  - destruct (keys_eqb k' k0) eqn:E1; simpl.
    + apply keys_eqb_eq in E1; subst k0.
      destruct (keys_eqb k k'); reflexivity.
    + rewrite IH.
      destruct (keys_eqb k k0) eqn:E2, (keys_eqb k k') eqn:E3; auto.
      apply keys_eqb_eq in E2; apply keys_eqb_eq in E3; subst.
      rewrite keys_eqb_refl in E1; discriminate.
Qed.

Lemma build_index_find (keys2 : list string) (k : list nkey)
    (l : list (nat * row)) :
  idx_find k (build_index keys2 l) =
  filter (fun p => match key_of keys2 (snd p) with
                   | Some k' => keys_eqb k k'
                   | None => false
                   end) l.
Proof.
  induction l as [|[j r] l IH]; simpl; auto.
  destruct (key_of keys2 r) eqn:E.
  - rewrite idx_find_add, IH; reflexivity.
  - exact IH.
Qed.

(** Probing the index returns exactly the matching table2 entries, in
    table2 order. *)
Lemma probe_build (keys1 keys2 : list string) (l : list (nat * row))
    (r1 : row) :
  List.length keys1 = List.length keys2 ->
  probe keys1 (build_index keys2 l) r1 =
  filter (fun p => rows_match keys1 keys2 r1 (snd p)) l.
Proof.
  intro Hlen. unfold probe.
  destruct (key_of keys1 r1) eqn:E.
  - rewrite build_index_find. apply filter_ext. intro p.
    rewrite (rows_match_key _ _ _ _ Hlen), E. reflexivity.
  - induction l as [|p l IH]; simpl; auto.
    rewrite (rows_match_key _ _ _ _ Hlen), E. exact IH.
Qed.

Lemma enum_filter_map (A : Type) (f : row -> A) (P : row -> bool)
    (n : nat) (l : list row) :
  map (fun p => f (snd p)) (filter (fun p => P (snd p)) (enum_from n l)) =
  map f (filter P l).
Proof.
  revert n; induction l as [|r l IH]; intro n; simpl; auto.
  destruct (P r); simpl; rewrite IH; reflexivity.
Qed.

Lemma enum_filter_nil (P : row -> bool) (n : nat) (l : list row) :
  filter (fun p => P (snd p)) (enum_from n l) = [] <->
  existsb P l = false.
Proof.
  revert n; induction l as [|r l IH]; intro n; simpl; [tauto|].
  destruct (P r); simpl; [split; discriminate|apply IH].
Qed.

Lemma enum_from_fst (n j : nat) (r : row) (l : list row) :
  In (j, r) (enum_from n l) -> n <= j.
Proof.
  revert n; induction l as [|a l IH]; intros n H; simpl in H; [contradiction|].
  destruct H as [H|H]; [inversion H; lia|].
  apply IH in H; lia.
Qed.

Lemma existsb_used_enum (P : row -> bool) (n j : nat) (r2 : row)
    (l : list row) :
  In (j, r2) (enum_from n l) ->
  existsb (Nat.eqb j) (map fst (filter (fun p => P (snd p)) (enum_from n l)))
  = P r2.
Proof.
  revert n; induction l as [|a l IH]; intros n Hin; simpl in Hin;
    [contradiction|].
  assert (Hfresh : existsb (Nat.eqb n)
            (map fst (filter (fun p => P (snd p)) (enum_from (S n) l)))
          = false).
  { apply Bool.not_true_iff_false; intro Hex.
    apply existsb_exists in Hex as [x [Hx Heq]].
    apply Nat.eqb_eq in Heq; subst x.
    apply in_map_iff in Hx as [[j' r'] [Hj Hx]]; simpl in Hj; subst j'.
    apply filter_In in Hx as [Hx _].
    apply enum_from_fst in Hx; lia. }
  simpl. destruct Hin as [Heq|Hin].
  - inversion Heq; subst j r2.
    destruct (P a) eqn:Pa; simpl.
    + rewrite Nat.eqb_refl; reflexivity.
    + exact Hfresh.
  - pose proof (enum_from_fst _ _ _ _ Hin) as Hle.
    destruct (P a); simpl;
      [replace (Nat.eqb j n) with false by (symmetry; apply Nat.eqb_neq; lia);
       simpl|];
      apply IH; exact Hin.
Qed.

Lemma existsb_flat_map (A B : Type) (f : A -> list B) (P : B -> bool)
    (l : list A) :
  existsb P (flat_map f l) = existsb (fun a => existsb P (f a)) l.
Proof.
  induction l as [|a l IH]; simpl; auto.
  rewrite existsb_app, IH; reflexivity.
Qed.

Lemma existsb_map_comp (A B : Type) (g : A -> B) (P : B -> bool)
    (l : list A) :
  existsb P (map g l) = existsb (fun a => P (g a)) l.
Proof. induction l as [|a l IH]; simpl; rewrite ?IH; reflexivity. Qed.

Lemma flat_map_ext_in (A B : Type) (f g : A -> list B) (l : list A) :
  (forall a, In a l -> f a = g a) -> flat_map f l = flat_map g l.
Proof.
  induction l as [|a l IH]; intro H; simpl; auto.
  rewrite (H a (or_introl eq_refl)), IH; auto.
  intros x Hx; apply H; right; exact Hx.
Qed.

(** Refinement: the hashed engine produces exactly the nested-loop join,
    row for row and in the same order. *)
Lemma join_engine_nested (jt : join_type) (keys1 keys2 : list string)
    (t1 t2 : list row) :
  List.length keys1 = List.length keys2 ->
  join_engine jt keys1 keys2 t1 t2 = join_nested jt keys1 keys2 t1 t2.
Proof.
  intro Hlen. unfold join_engine, join_nested.
  set (e2 := enum_from 0 t2).
  set (m := rows_match keys1 keys2).
  assert (Hp : forall r1, probe keys1 (build_index keys2 e2) r1 =
                          filter (fun p => m r1 (snd p)) e2)
    by (intro r1; apply probe_build; exact Hlen).
  f_equal; [|f_equal].
  - induction t1 as [|r1 t1 IH]; simpl; auto.
    rewrite IH, Hp. f_equal. unfold e2.
    apply (enum_filter_map _ (Both r1) (m r1)).
  - destruct (keeps_left jt); auto.
    clear - Hp. induction t1 as [|r1 t1 IH]; simpl; auto.
    rewrite IH, Hp.
    destruct (filter (fun p => m r1 (snd p)) e2) eqn:E.
    + apply enum_filter_nil in E. rewrite E. reflexivity.
    + destruct (existsb (m r1) t2) eqn:Ex; [reflexivity|].
      apply (enum_filter_nil _ 0) in Ex. fold e2 in Ex. congruence.
  - destruct (keeps_right jt); auto.
    rewrite (flat_map_ext_in _ _ _
      (fun p => if existsb (fun r1 => m r1 (snd p)) t1 then []
                else [RightOnly (snd p)])).
    + unfold e2. generalize 0. clear.
      induction t2 as [|r2 t2 IH]; intro n; simpl; auto.
      destruct (existsb (fun r1 => m r1 r2) t1); simpl; rewrite IH; auto.
    + intros [j r2] Hin. simpl.
      rewrite existsb_flat_map, existsb_map_comp. simpl.
      assert (Hx : forall t,
        existsb (fun a => existsb (Nat.eqb j)
                   (map fst (probe keys1 (build_index keys2 e2) a))) t =
        existsb (fun r1 => m r1 r2) t).
      { induction t as [|r1 t IH]; simpl; auto.
        rewrite IH, Hp. unfold e2 in *.
        rewrite (existsb_used_enum _ _ _ _ _ Hin). reflexivity. }
      rewrite Hx. reflexivity.
Qed.

End JoinFacts.

Module StoreFacts.
Import Value Join Store JoinFacts.
Local Open Scope nat_scope.

(** *** Lookup in the table list *)

Lemma lookup_app_some (id : nat) (l l' : list (nat * table)) :
  lookup id l <> None -> lookup id (l ++ l') = lookup id l.
Proof.
  unfold lookup. induction l as [|[j t] l IH]; simpl; [tauto|].
  destruct (Nat.eqb j id); auto.
Qed.

Lemma lookup_app_none (id : nat) (l l' : list (nat * table)) :
  lookup id l = None -> lookup id (l ++ l') = lookup id l'.
Proof.
  unfold lookup. induction l as [|[j t] l IH]; simpl; auto.
  destruct (Nat.eqb j id); [discriminate|auto].
Qed.

Lemma lookup_last (id : nat) (t : table) (l : list (nat * table)) :
  lookup id (l ++ [(id, t)]) <> None.
Proof.
  destruct (lookup id l) eqn:E.
  - rewrite lookup_app_some; congruence.
  - rewrite lookup_app_none by exact E.
    unfold lookup; simpl; rewrite Nat.eqb_refl; discriminate.
Qed.

Lemma lookup_filter_other (a id : nat) (l : list (nat * table)) :
  a <> id ->
  lookup a (filter (fun p => negb (Nat.eqb (fst p) id)) l) = lookup a l.
Proof.
  intro Hne. unfold lookup.
  induction l as [|[j t] l IH]; simpl; auto.
  destruct (Nat.eqb j id) eqn:Ej; simpl.
  - apply Nat.eqb_eq in Ej; subst j.
    replace (Nat.eqb id a) with false by (symmetry; apply Nat.eqb_neq; auto).
    exact IH.
  - destruct (Nat.eqb j a); auto.
Qed.

Lemma lookup_in (id : nat) (l : list (nat * table)) :
  lookup id l <> None -> exists t, In (id, t) l.
Proof.
  unfold lookup. induction l as [|[j t] l IH]; simpl; [tauto|].
  destruct (Nat.eqb j id) eqn:E; intro H.
  - apply Nat.eqb_eq in E; subst; eauto.
  - destruct (IH H) as [t' Ht']; eauto.
Qed.

Lemma lookup_fresh (id : nat) (t : table) (l : list (nat * table)) :
  Forall (fun p => fst p < id) l -> lookup id (l ++ [(id, t)]) = Some t.
Proof.
  intro Hl. rewrite lookup_app_none.
  - unfold lookup; simpl; rewrite Nat.eqb_refl; reflexivity.
  - unfold lookup. induction Hl as [|[j t'] l Hj Hl IH]; simpl in *; auto.
    replace (Nat.eqb j id) with false by (symmetry; apply Nat.eqb_neq; lia).
    exact IH.
Qed.

(** *** Store well-formedness: a valid active pointer and fresh ids *)

Definition store_wf (s : store) : Prop :=
  active_ok s /\ Forall (fun p => fst p < next_id s) (tables s).

Lemma Forall_lt_mono (l : list (nat * table)) (n m : nat) :
  n <= m -> Forall (fun p => fst p < n) l -> Forall (fun p => fst p < m) l.
Proof.
  intros Hnm H. eapply Forall_impl; [|exact H]. intros p Hp; simpl in Hp; lia.
Qed.

Lemma Forall_register (l : list (nat * table)) (n : nat) (t : table) :
  Forall (fun p => fst p < n) l ->
  Forall (fun p => fst p < S n) (l ++ [(n, t)]).
Proof.
  intro H. apply Forall_app; split.
  - eapply Forall_lt_mono; [|exact H]; lia.
  - constructor; simpl; auto.
Qed.

Lemma active_ok_app (s : store) (l' : list (nat * table)) (a : option nat)
    (n : nat) :
  active_ok s -> a = active_id s ->
  active_ok (mk_store (tables s ++ l') a n).
Proof.
  unfold active_ok; simpl. intros H ->.
  destruct (active_id s) as [id|]; auto.
  rewrite lookup_app_some; auto.
Qed.

Lemma exec_wf (s : store) (o : op) : store_wf s -> store_wf (exec s o).
Proof.
  intros [Ha Hf]. destruct o as [src|id|id|id1 id2 k1 k2 jt nm|]; simpl.
  - destruct src as [t|e]; simpl; [|split; auto].
    split; [|apply Forall_register; exact Hf].
    unfold active_ok in *; simpl. destruct (active_id s) as [a|].
    + rewrite lookup_app_some; auto.
    + apply lookup_last.
  - unfold remove_table. destruct (lookup id (tables s)) eqn:E;
      simpl; [|split; auto].
    split.
    + unfold active_ok in *; simpl.
      destruct (active_id s) as [a|] eqn:Ea; simpl; auto.
      destruct (Nat.eqb a id) eqn:Eid; simpl; auto.
      apply Nat.eqb_neq in Eid. rewrite lookup_filter_other; auto.
    + apply Forall_forall. intros p Hp. apply filter_In in Hp as [Hp _].
      rewrite Forall_forall in Hf. apply Hf, Hp.
  - unfold set_active. destruct (lookup id (tables s)) eqn:E;
      simpl; [|split; auto].
    split; auto. unfold active_ok; simpl; congruence.
  - unfold join_tables.
    destruct (lookup id1 (tables s)) as [t1|], (lookup id2 (tables s)) as [t2|];
      simpl; [|split; auto..].
    destruct (validate_join t1 t2 k1 k2 jt); simpl; split; auto.
    + apply active_ok_app; auto.
    + apply Forall_register; exact Hf.
  - split; [exact I | constructor].
Qed.

Lemma run_wf (ops : list op) (s : store) :
  store_wf s -> store_wf (run s ops).
Proof.
  revert s; induction ops as [|o ops IH]; intros s H; simpl; auto.
  apply IH, exec_wf, H.
Qed.

Lemma empty_wf : store_wf empty_store.
Proof. split; [exact I | constructor]. Qed.

Lemma reachable_wf (ops : list op) : store_wf (run empty_store ops).
Proof. apply run_wf, empty_wf. Qed.

(** *** Column names *)

Lemma has_column_In (t : table) (k : string) :
  has_column t k = true <-> In k (tbl_columns t).
Proof.
  unfold has_column. rewrite existsb_exists. split.
  - intros [x [Hx E]]. apply String.eqb_eq in E; subst; exact Hx.
  - intro H. exists k; split; auto. apply String.eqb_refl.
Qed.

Lemma existsb_eqb_In (c : string) (l : list string) :
  existsb (String.eqb c) l = true <-> In c l.
Proof.
  rewrite existsb_exists. split.
  - intros [x [Hx E]]. apply String.eqb_eq in E; subst; exact Hx.
  - intro H. exists c; split; auto. apply String.eqb_refl.
Qed.

Lemma string_app_cancel_l (s x y : string) :
  (s ++ x)%string = (s ++ y)%string -> x = y.
Proof.
  induction s as [|a s IH]; simpl; auto. intro H; injection H; auto.
Qed.

Lemma show_nat_inj (a b : nat) : show_nat a = show_nat b -> a = b.
Proof.
  unfold show_nat. intro H.
  assert (Hu : Nat.to_uint a = Nat.to_uint b).
  { apply (f_equal NilEmpty.uint_of_string) in H.
    rewrite !NilEmpty.usu in H. congruence. }
  rewrite <- (DecimalNat.Unsigned.of_to a), <- (DecimalNat.Unsigned.of_to b).
  congruence.
Qed.

Lemma suffixed_inj (c : string) (a b : nat) :
  suffixed c a = suffixed c b -> a = b.
Proof.
  unfold suffixed. intro H. apply string_app_cancel_l in H.
  injection H as H. apply show_nat_inj, H.
Qed.

Lemma fresh_from_spec (c : string) (taken : list string) (fuel n : nat) :
  (exists m, n <= m < n + fuel /\ ~ In (suffixed c m) taken) ->
  ~ In (fresh_from c taken n fuel) taken /\
  exists m, fresh_from c taken n fuel = suffixed c m.
Proof.
  revert n; induction fuel as [|f IH]; intros n [m [Hm Hnot]]; [lia|].
  simpl. destruct (existsb (String.eqb (suffixed c n)) taken) eqn:E.
  - apply IH. exists m; split; auto.
    assert (m <> n); [|lia].
    intro; subst m. apply existsb_eqb_In in E; contradiction.
  - split; eauto. intro Hin.
    apply existsb_eqb_In in Hin. congruence.
Qed.

(** Pigeonhole: among [length taken + 1] distinct candidates one is free. *)
Lemma fresh_name_spec (c : string) (taken : list string) :
  ~ In (fresh_name c taken) taken /\
  exists m, fresh_name c taken = suffixed c m.
Proof.
  apply fresh_from_spec.
  set (cands := seq 2 (S (List.length taken))).
  destruct (existsb (fun m => negb (existsb (String.eqb (suffixed c m)) taken))
              cands) eqn:E.
  - apply existsb_exists in E as [m [Hm E]].
    apply in_seq in Hm. exists m; split; [lia|].
    intro Hin. apply existsb_eqb_In in Hin. rewrite Hin in E. discriminate.
  - exfalso.
    assert (Hincl : incl (map (suffixed c) cands) taken).
    { intros x Hx. apply in_map_iff in Hx as [m [<- Hm]].
      apply existsb_eqb_In.
      destruct (existsb (String.eqb (suffixed c m)) taken) eqn:Em; auto.
      assert (Hc : existsb (fun m => negb (existsb (String.eqb (suffixed c m))
                                            taken)) cands = true).
      { apply existsb_exists. exists m; rewrite Em; auto. }
      congruence. }
    assert (Hnd : NoDup (map (suffixed c) cands)).
    { assert (Hs : NoDup cands) by apply seq_NoDup.
      clear - Hs. induction Hs as [|m l Hm Hs IH]; simpl; constructor; auto.
      intro Hin. apply in_map_iff in Hin as [m' [E Hm']].
      apply suffixed_inj in E; subst; contradiction. }
    pose proof (NoDup_incl_length Hnd Hincl) as Hlen.
    rewrite length_map in Hlen. unfold cands in Hlen.
    rewrite length_seq in Hlen. lia.
Qed.

End StoreFacts.

Module ColumnFacts.
Import Store StoreFacts.

Definition renamed_ok (cols1 : list string) (c c' : string) : Prop :=
  (~ In c cols1 /\ c' = c) \/
  (In c cols1 /\ ~ In c' cols1 /\ exists sfx, c' = (c ++ "_" ++ sfx)%string).

Lemma rename_from_ok (cols1 all2 : list string) (cols2 assigned : list string) :
  Forall2 (renamed_ok cols1) cols2 (rename_from cols1 all2 assigned cols2).
Proof.
  revert assigned; induction cols2 as [|c cs IH]; intro assigned; simpl;
    constructor; auto.
  unfold renamed_ok.
  destruct (existsb (String.eqb c) cols1) eqn:E.
  - apply existsb_eqb_In in E. right.
    destruct (fresh_name_spec c (cols1 ++ all2 ++ assigned)) as [Hn [m Hm]].
    split; auto. split.
    + intro H; apply Hn, in_or_app; left; exact H.
    + exists (show_nat m). exact Hm.
  - left. split; auto. intro H. apply existsb_eqb_In in H. congruence.
Qed.

Lemma NoDup_snoc (A : Type) (l : list A) (x : A) :
  NoDup l -> ~ In x l -> NoDup (l ++ [x]).
Proof.
  intros Hl Hx. induction Hl as [|a l Ha Hl IH]; simpl.
  - constructor; [intros []|constructor].
  - constructor.
    + intro H. apply in_app_or in H as [H|[H|[]]]; [contradiction|].
      subst; apply Hx; left; reflexivity.
    + apply IH. intro H; apply Hx; right; exact H.
Qed.

Lemma rename_from_nodup (cols1 all2 : list string) :
  forall cs assigned,
  NoDup cs -> incl cs all2 -> NoDup (cols1 ++ assigned) ->
  (forall x, In x assigned -> In x cs -> False) ->
  NoDup (cols1 ++ assigned ++ rename_from cols1 all2 assigned cs).
Proof.
  induction cs as [|c cs IH]; intros assigned Hcs Hincl Hnd Hdisj; simpl.
  - rewrite app_nil_r; exact Hnd.
  - inversion Hcs as [|? ? Hc Hcs']; subst.
    set (c' := if existsb (String.eqb c) cols1
               then fresh_name c (cols1 ++ all2 ++ assigned) else c).
    assert (Hc' : ~ In c' (cols1 ++ assigned) /\ ~ In c' cs).
    { unfold c'. destruct (existsb (String.eqb c) cols1) eqn:E.
      - destruct (fresh_name_spec c (cols1 ++ all2 ++ assigned)) as [Hn _].
        split.
        + intro H; apply Hn. apply in_app_or in H as [H|H];
            apply in_or_app; [left|right; apply in_or_app; right]; exact H.
        + intro H; apply Hn, in_or_app; right; apply in_or_app; left.
          apply Hincl; right; exact H.
      - split; auto. intro H. apply in_app_or in H as [H|H].
        + apply existsb_eqb_In in H; congruence.
        + apply (Hdisj c); [exact H|left; reflexivity]. }
    destruct Hc' as [Hc1 Hc2].
    replace (cols1 ++ assigned ++ c' :: rename_from cols1 all2 (assigned ++ [c']) cs)
      with (cols1 ++ (assigned ++ [c']) ++ rename_from cols1 all2 (assigned ++ [c']) cs)
      by (rewrite <- !app_assoc; reflexivity).
    apply IH; auto.
    + intros x Hx; apply Hincl; right; exact Hx.
    + rewrite app_assoc. apply NoDup_snoc; auto.
    + intros x Hx Hin. apply in_app_or in Hx as [Hx|Hx].
      * apply (Hdisj x); [exact Hx|right; exact Hin].
      * destruct Hx as [Hx|[]]; subst x. contradiction.
Qed.

(** Output columns are distinct whenever both inputs' columns are. *)
Lemma join_columns_nodup (cols1 cols2 : list string) :
  NoDup cols1 -> NoDup cols2 -> NoDup (join_columns cols1 cols2).
Proof.
  intros H1 H2. unfold join_columns, rename_columns.
  pose proof (rename_from_nodup cols1 cols2 cols2 [] H2 (incl_refl _))
    as H. simpl in H. apply H; [rewrite app_nil_r; exact H1|].
  intros x [].
Qed.

End ColumnFacts.

Module MatchFacts.
Import Value Join JoinFacts.
Local Open Scope nat_scope.

Lemma rows_match_nth (keys1 keys2 : list string) (r1 r2 : row) :
  List.length keys1 = List.length keys2 ->
  rows_match keys1 keys2 r1 r2 = true <->
  (forall k, k < List.length keys1 ->
   val_eq (row_get r1 (nth k keys1 ""%string)) (row_get r2 (nth k keys2 ""%string)) = true).
Proof.
  revert keys2; induction keys1 as [|k1 ks1 IH]; intros [|k2 ks2] Hlen;
    simpl in Hlen; try discriminate; simpl.
  - split; [intros _ k Hk; lia | auto].
  - injection Hlen as Hlen. rewrite andb_true_iff, (IH ks2 Hlen). split.
    + intros [H0 HS] [|k] Hk; simpl; auto. apply HS; lia.
    + intro H. split; [apply (H 0); lia|].
      intros k Hk. apply (H (S k)); simpl; lia.
Qed.

Lemma in_nested_both (jt : join_type) (keys1 keys2 : list string)
    (t1 t2 : list row) (r1 r2 : row) :
  In (Both r1 r2) (join_nested jt keys1 keys2 t1 t2) <->
  In r1 t1 /\ In r2 t2 /\ rows_match keys1 keys2 r1 r2 = true.
Proof.
  unfold join_nested. rewrite !in_app_iff. split.
  - intros [H|[H|H]].
    + apply in_flat_map in H as [x [Hx H]].
      apply in_map_iff in H as [y [E Hy]]. injection E as <- <-.
      apply filter_In in Hy as [Hy Hm]. auto.
    + destruct (keeps_left jt); [|contradiction].
      apply in_map_iff in H as [? [E _]]; discriminate.
    + destruct (keeps_right jt); [|contradiction].
      apply in_map_iff in H as [? [E _]]; discriminate.
  - intros [H1 [H2 Hm]]. left. apply in_flat_map. exists r1; split; auto.
    apply in_map. apply filter_In; auto.
Qed.

End MatchFacts.

Module ConfigFacts.
Import Config.
Local Open Scope nat_scope.

Arguments re_sub_spec : simpl never.

Section Scanner.

Variable is_word_char : N -> bool.

Lemma N_eqb_refl_true (n : N) : N.eqb n n = true.
Proof. apply N.eqb_refl. Qed.

Lemma process_value_dict (e : env) (d : list (text * cvalue)) :
  process_value is_word_char e (CDict d) =
  CDict (_process_config_dict is_word_char e d).
Proof.
  simpl. f_equal. unfold _process_config_dict.
  induction d as [|[k v] d IH]; simpl; congruence.
Qed.

(** Without a closing brace nothing is substituted: the scanner gives back
    the text it holds and then the input as it is. *)
Lemma expand_no_close (e : env) (s : text) :
  forall st, ~ In rbrace s ->
  expand_from is_word_char e st s = pending st ++ s.
Proof.
  induction s as [|c r IH]; intros st H.
  - destruct st; simpl; rewrite ?app_nil_r; reflexivity.
  - assert (Hc : c <> rbrace) by (intro; apply H; left; auto).
    assert (Hr : ~ In rbrace r) by (intro; apply H; right; auto).
    destruct st as [| | |w]; simpl.
    + destruct (N.eqb c dollar) eqn:E1.
      * apply N.eqb_eq in E1; subst. rewrite IH by exact Hr. reflexivity.
      * rewrite IH by exact Hr. reflexivity.
    + destruct (N.eqb c lbrace) eqn:E1; [|destruct (N.eqb c dollar) eqn:E2].
      * apply N.eqb_eq in E1; subst. rewrite IH by exact Hr. reflexivity.
      * apply N.eqb_eq in E2; subst. rewrite IH by exact Hr. reflexivity.
      * rewrite IH by exact Hr. reflexivity.
    + destruct (is_word_char c) eqn:E1; [|destruct (N.eqb c dollar) eqn:E2].
      * rewrite IH by exact Hr. reflexivity.
      * apply N.eqb_eq in E2; subst. rewrite IH by exact Hr. reflexivity.
      * rewrite IH by exact Hr. reflexivity.
    + destruct (is_word_char c) eqn:E1; [|destruct (N.eqb c rbrace) eqn:E2;
        [|destruct (N.eqb c dollar) eqn:E3]].
      * rewrite IH by exact Hr. simpl. rewrite <- app_assoc. reflexivity.
      * apply N.eqb_eq in E2. contradiction.
      * apply N.eqb_eq in E3; subst. rewrite IH by exact Hr. reflexivity.
      * rewrite IH by exact Hr. reflexivity.
Qed.

(** Facts about the reference [re.sub] semantics. *)

Lemma word_span_app (s w t : text) :
  word_span is_word_char s = (w, t) -> s = w ++ t /\ forallb is_word_char w = true.
Proof.
  revert w t; induction s as [|c r IH]; intros w t H; simpl in H.
  - inversion H; subst. split; reflexivity.
  - destruct (is_word_char c) eqn:Ec.
    + destruct (word_span is_word_char r) as [w' t'] eqn:Er.
      inversion H; subst. destruct (IH _ _ eq_refl) as [-> Hw].
      split; [reflexivity|]. simpl. rewrite Ec, Hw. reflexivity.
    + inversion H; subst. split; reflexivity.
Qed.

Lemma word_span_word (w t : text) (c : N) :
  forallb is_word_char w = true -> is_word_char c = false ->
  word_span is_word_char (w ++ c :: t) = (w, c :: t).
Proof.
  induction w as [|x w IH]; intros Hw Hc; simpl in *.
  - rewrite Hc. reflexivity.
  - apply andb_true_iff in Hw as [Hx Hw]. rewrite Hx, IH by assumption.
    reflexivity.
Qed.

Lemma match_at_some (s w rest : text) :
  match_at is_word_char s = Some (w, rest) ->
  s = dollar :: lbrace :: w ++ rbrace :: rest /\ w <> [] /\
  forallb is_word_char w = true.
Proof.
  unfold match_at. destruct s as [|c1 [|c2 r]]; try discriminate.
  destruct (N.eqb c1 dollar) eqn:E1; [|discriminate].
  destruct (N.eqb c2 lbrace) eqn:E2; [|discriminate]. simpl.
  apply N.eqb_eq in E1, E2; subst.
  destruct (word_span is_word_char r) as [w' [|c rest']] eqn:Er; [discriminate|].
  destruct (truthy w') eqn:Et; [|discriminate].
  destruct (N.eqb c rbrace) eqn:Ec; [|discriminate]. simpl.
  intro H; inversion H; subst.
  apply N.eqb_eq in Ec; subst. destruct (word_span_app _ _ _ Er) as [-> Hw].
  repeat split; [|assumption]. destruct w; discriminate.
Qed.

Lemma match_at_length (s w rest : text) :
  match_at is_word_char s = Some (w, rest) -> List.length rest < List.length s.
Proof.
  intro H. destruct (match_at_some _ _ _ H) as [-> _].
  simpl. rewrite length_app. simpl. lia.
Qed.

Lemma sub_fuel_enough (e : env) :
  forall n m s, List.length s <= n -> List.length s <= m ->
  sub_fuel is_word_char e n s = sub_fuel is_word_char e m s.
Proof.
  induction n as [|n IH]; intros m s Hn Hm.
  - destruct s; [destruct m; reflexivity|simpl in Hn; lia].
  - destruct m as [|m].
    + destruct s; [reflexivity|simpl in Hm; lia].
    + destruct s as [|c r]; [reflexivity|]. cbn [sub_fuel].
      destruct (match_at is_word_char (c :: r)) as [[w rest]|] eqn:Em.
      * pose proof (match_at_length _ _ _ Em). cbn [List.length] in *.
        rewrite (IH m rest) by lia. reflexivity.
      * cbn [List.length] in *. rewrite (IH m r) by lia. reflexivity.
Qed.

Lemma re_sub_nil (e : env) : re_sub_spec is_word_char e [] = [].
Proof. reflexivity. Qed.

Lemma re_sub_cons (e : env) (c : N) (r : text) :
  re_sub_spec is_word_char e (c :: r) =
  match match_at is_word_char (c :: r) with
  | Some (w, rest) => env_get e w ++ re_sub_spec is_word_char e rest
  | None => c :: re_sub_spec is_word_char e r
  end.
Proof.
  unfold re_sub_spec at 1. cbn [List.length sub_fuel].
  destruct (match_at is_word_char (c :: r)) as [[w rest]|] eqn:Em.
  - pose proof (match_at_length _ _ _ Em). cbn [List.length] in *.
    unfold re_sub_spec. rewrite (sub_fuel_enough e _ (List.length rest)) by lia.
    reflexivity.
  - reflexivity.
Qed.

Lemma re_sub_copy (e : env) (c : N) (r : text) :
  c <> dollar -> re_sub_spec is_word_char e (c :: r) = c :: re_sub_spec is_word_char e r.
Proof.
  intro Hc. rewrite re_sub_cons. unfold match_at.
  destruct r as [|c2 r]; [reflexivity|].
  apply N.eqb_neq in Hc. rewrite Hc. reflexivity.
Qed.

Hypothesis dollar_not_word : is_word_char dollar = false.
Hypothesis rbrace_not_word : is_word_char rbrace = false.

Lemma word_not_dollar (c : N) : is_word_char c = true -> c <> dollar.
Proof. intros H ->. rewrite dollar_not_word in H. discriminate. Qed.

Lemma re_sub_copy_word (e : env) (w t : text) :
  forallb is_word_char w = true ->
  re_sub_spec is_word_char e (w ++ t) = w ++ re_sub_spec is_word_char e t.
Proof.
  induction w as [|x w IH]; intro Hw; [reflexivity|].
  simpl in Hw. apply andb_true_iff in Hw as [Hx Hw].
  simpl. rewrite re_sub_copy by (apply word_not_dollar; exact Hx).
  rewrite IH by exact Hw. reflexivity.
Qed.

Lemma match_at_placeholder (w rest : text) :
  w <> [] -> forallb is_word_char w = true ->
  match_at is_word_char (dollar :: lbrace :: w ++ rbrace :: rest) = Some (w, rest).
Proof.
  intros Hne Hw. unfold match_at. rewrite !N_eqb_refl_true. simpl.
  rewrite word_span_word by assumption.
  destruct w; [contradiction|]. reflexivity.
Qed.

Lemma match_at_no_close (w t : text) (x : N) :
  forallb is_word_char w = true -> is_word_char x = false -> x <> rbrace ->
  match_at is_word_char (dollar :: lbrace :: w ++ x :: t) = None.
Proof.
  intros Hw Hx Hxr. unfold match_at. rewrite !N_eqb_refl_true. simpl.
  rewrite word_span_word by assumption.
  apply N.eqb_neq in Hxr. rewrite Hxr, andb_false_r. reflexivity.
Qed.

Definition state_ok (st : scan_state) : Prop :=
  match st with
  | InName w => w <> [] /\ forallb is_word_char w = true
  | _ => True
  end.

(** The scanner computes the reference semantics from every state it can
    reach, once the text it holds is put back in front of the input. *)
Lemma expand_from_re_sub (e : env) (s : text) :
  forall st, state_ok st ->
  expand_from is_word_char e st s = re_sub_spec is_word_char e (pending st ++ s).
Proof.
  induction s as [|c r IH]; intros st Hst.
  - rewrite app_nil_r. destruct st as [| | |w]; simpl.
    + reflexivity.
    + reflexivity.
    + reflexivity.
    + destruct Hst as [Hne Hw].
      rewrite re_sub_cons.
      replace (match_at is_word_char (dollar :: lbrace :: w)) with
        (@None (text * text)).
      2:{ unfold match_at. rewrite !N_eqb_refl_true. simpl.
          rewrite <- (app_nil_r w) at 1.
          destruct (word_span is_word_char (w ++ [])) as [w' t] eqn:Ews.
          clear -Ews Hw.
          assert (Hg : forall u, forallb is_word_char u = true ->
                    word_span is_word_char u = (u, [])).
          { induction u as [|y u IHu]; intro Hu; [reflexivity|].
            simpl in Hu. apply andb_true_iff in Hu as [Hy Hu].
            simpl. rewrite Hy, IHu by exact Hu. reflexivity. }
          rewrite app_nil_r, Hg in Ews by exact Hw. inversion Ews; subst.
          reflexivity. }
      rewrite re_sub_copy by discriminate.
      rewrite <- (app_nil_r w) at 2. rewrite re_sub_copy_word by exact Hw.
      rewrite re_sub_nil, app_nil_r. reflexivity.
  - destruct st as [| | |w]; simpl.
    + destruct (N.eqb c dollar) eqn:E1.
      * apply N.eqb_eq in E1; subst. rewrite (IH SawDollar) by exact I.
        reflexivity.
      * apply N.eqb_neq in E1. rewrite re_sub_copy by exact E1.
        rewrite (IH Normal) by exact I. reflexivity.
    + destruct (N.eqb c lbrace) eqn:E1; [|destruct (N.eqb c dollar) eqn:E2].
      * apply N.eqb_eq in E1; subst. rewrite (IH SawBrace) by exact I.
        reflexivity.
      * apply N.eqb_eq in E2; subst. rewrite (IH SawDollar) by exact I.
        rewrite re_sub_cons. reflexivity.
      * apply N.eqb_neq in E1, E2. rewrite (IH Normal) by exact I.
        rewrite re_sub_cons. unfold match_at at 1.
        rewrite N_eqb_refl_true. apply N.eqb_neq in E1. rewrite E1. simpl.
        rewrite re_sub_copy by exact E2. reflexivity.
    + destruct (is_word_char c) eqn:E1; [|destruct (N.eqb c dollar) eqn:E2].
      * rewrite (IH (InName [c])) by (split; [discriminate|simpl; rewrite E1; reflexivity]).
        reflexivity.
      * apply N.eqb_eq in E2; subst. rewrite (IH SawDollar) by exact I.
        rewrite re_sub_cons.
        pose proof (match_at_no_close [] r dollar eq_refl dollar_not_word
                      ltac:(discriminate)) as Hm.
        simpl app in Hm. rewrite Hm.
        rewrite re_sub_copy by discriminate. reflexivity.
      * apply N.eqb_neq in E2. rewrite (IH Normal) by exact I.
        rewrite re_sub_cons.
        destruct (N.eqb c rbrace) eqn:E3.
        -- apply N.eqb_eq in E3; subst. unfold match_at.
           rewrite !N_eqb_refl_true. simpl. rewrite rbrace_not_word. simpl.
           rewrite re_sub_copy by discriminate.
           rewrite re_sub_copy by discriminate. reflexivity.
        -- apply N.eqb_neq in E3.
           pose proof (match_at_no_close [] r c eq_refl E1 E3) as Hm.
           simpl app in Hm. rewrite Hm.
           rewrite re_sub_copy by discriminate.
           rewrite re_sub_copy by exact E2. reflexivity.
    + destruct Hst as [Hne Hw].
      destruct (is_word_char c) eqn:E1; [|destruct (N.eqb c rbrace) eqn:E2;
        [|destruct (N.eqb c dollar) eqn:E3]].
      * rewrite (IH (InName (w ++ [c]))).
        -- simpl. rewrite <- app_assoc. reflexivity.
        -- split; [destruct w; [contradiction|discriminate]|].
           rewrite forallb_app, Hw. simpl. rewrite E1. reflexivity.
      * apply N.eqb_eq in E2; subst. rewrite (IH Normal) by exact I.
        rewrite re_sub_cons, match_at_placeholder by assumption. reflexivity.
      * apply N.eqb_eq in E3; subst. apply N.eqb_neq in E2.
        rewrite (IH SawDollar) by exact I. cbn [pending app].
        rewrite (re_sub_cons e dollar (lbrace :: w ++ dollar :: r)).
        rewrite (match_at_no_close w r dollar) by assumption.
        rewrite (re_sub_copy e lbrace) by discriminate.
        rewrite re_sub_copy_word by exact Hw. reflexivity.
      * apply N.eqb_neq in E2, E3. rewrite (IH Normal) by exact I.
        cbn [pending app].
        rewrite (re_sub_cons e dollar (lbrace :: w ++ c :: r)).
        rewrite (match_at_no_close w r c) by assumption.
        rewrite (re_sub_copy e lbrace) by discriminate.
        rewrite re_sub_copy_word by exact Hw.
        rewrite (re_sub_copy e c) by exact E3. reflexivity.
Qed.

Lemma expand_env_vars_re_sub (e : env) (s : text) :
  _expand_env_vars is_word_char e s = re_sub_spec is_word_char e s.
Proof. exact (expand_from_re_sub e s Normal I). Qed.

End Scanner.

End ConfigFacts.

Module HandlerFacts.
Import Value Join Store StoreFacts Api Handlers.
Local Open Scope nat_scope.

Lemma set_active_exec (s : store) (id : nat) :
  fst (set_active s id) = exec s (OpSetActive id).
Proof. reflexivity. Qed.

Lemma join_tables_keeps_active (s : store) (id1 id2 : nat)
    (keys1 keys2 : list string) (jt nm : string) :
  active_id (fst (join_tables s id1 id2 keys1 keys2 jt nm)) = active_id s.
Proof.
  unfold join_tables.
  destruct (lookup id1 (tables s)), (lookup id2 (tables s)); auto.
  destruct (validate_join t t0 keys1 keys2 jt); reflexivity.
Qed.

Lemma join_tables_err_same (s : store) (id1 id2 : nat)
    (keys1 keys2 : list string) (jt nm : string) (s' : store) (e : error) :
  join_tables s id1 id2 keys1 keys2 jt nm = (s', Err e) -> s' = s.
Proof.
  unfold join_tables.
  destruct (lookup id1 (tables s)), (lookup id2 (tables s));
    try (intro H; injection H; auto; fail).
  destruct (validate_join t t0 keys1 keys2 jt); intro H; injection H; auto.
  discriminate.
Qed.

Lemma lookup_set_table_name (s : store) (id j : nat) (name : string) :
  lookup j (tables (set_table_name s id name)) =
  match lookup j (tables s) with
  | Some t => Some (if Nat.eqb j id
                    then {| tbl_name := name; tbl_source := tbl_source t;
                            tbl_columns := tbl_columns t;
                            tbl_rows := tbl_rows t |}
                    else t)
  | None => None
  end.
Proof.
  unfold set_table_name, lookup; simpl.
  induction (tables s) as [|[k t] l IH]; simpl; auto.
  destruct (Nat.eqb k id) eqn:Ek; simpl; destruct (Nat.eqb k j) eqn:Ej; auto.
  apply Nat.eqb_eq in Ek; apply Nat.eqb_eq in Ej; subst.
  rewrite Nat.eqb_refl; reflexivity.
  apply Nat.eqb_eq in Ej; subst. rewrite Ek. reflexivity.
Qed.

Lemma set_table_name_wf (s : store) (id : nat) (name : string) :
  store_wf s -> store_wf (set_table_name s id name).
Proof.
  intros [Ha Hf]. split.
  - unfold active_ok in *. change (active_id (set_table_name s id name))
      with (active_id s). destruct (active_id s) as [a|]; auto.
    rewrite lookup_set_table_name. destruct (lookup a (tables s)); congruence.
  - simpl. apply Forall_forall. intros p Hp.
    apply in_map_iff in Hp as [q [<- Hq]].
    rewrite Forall_forall in Hf.
    destruct (Nat.eqb (fst q) id); simpl; apply Hf, Hq.
Qed.

Lemma set_table_name_active (s : store) (id : nat) (name : string) :
  active_id (set_table_name s id name) = active_id s.
Proof. reflexivity. Qed.

Lemma NoDup_map_filter (f : nat * table -> nat) (p : nat * table -> bool)
    (l : list (nat * table)) :
  NoDup (map f l) -> NoDup (map f (filter p l)).
Proof.
  induction l as [|x l IH]; simpl; intro H; auto.
  inversion H as [|y l' Hx Hl]; subst.
  destruct (p x); simpl; auto.
  constructor; auto. intro Hin. apply Hx.
  apply in_map_iff in Hin as [y [Hy Hin]]. apply filter_In in Hin as [Hin _].
  apply in_map_iff. eauto.
Qed.

Lemma fresh_not_in (l : list (nat * table)) (n : nat) :
  Forall (fun p => fst p < n) l -> ~ In n (map fst l).
Proof.
  intros H Hin. apply in_map_iff in Hin as [[k t] [Hk Hin]]. simpl in Hk; subst.
  rewrite Forall_forall in H. specialize (H _ Hin). simpl in H. lia.
Qed.

(** Well formed, and no id is used twice. *)
Definition store_inv (s : store) : Prop :=
  store_wf s /\ NoDup (map fst (tables s)).

Lemma exec_inv (s : store) (o : op) : store_inv s -> store_inv (exec s o).
Proof.
  intros [Hw Hn]. split; [apply exec_wf, Hw|].
  destruct Hw as [_ Hf].
  destruct o as [src|id|id|id1 id2 k1 k2 jt nm|]; simpl.
  - destruct src as [t|e]; simpl; auto. rewrite map_app; simpl.
    apply ColumnFacts.NoDup_snoc; auto. apply fresh_not_in; auto.
  - unfold remove_table. destruct (lookup id (tables s)); simpl; auto.
    apply NoDup_map_filter; auto.
  - unfold set_active. destruct (lookup id (tables s)); simpl; auto.
  - unfold join_tables.
    destruct (lookup id1 (tables s)), (lookup id2 (tables s)); simpl; auto.
    destruct (validate_join t t0 k1 k2 jt); simpl; auto.
    rewrite map_app; simpl. apply ColumnFacts.NoDup_snoc; auto. apply fresh_not_in; auto.
  - constructor.
Qed.

Lemma set_table_name_ids (s : store) (id : nat) (name : string) :
  map fst (tables (set_table_name s id name)) = map fst (tables s).
Proof.
  simpl. rewrite map_map. apply map_ext. intros [k t]; simpl.
  destruct (Nat.eqb k id); reflexivity.
Qed.

Lemma set_table_name_inv (s : store) (id : nat) (name : string) :
  store_inv s -> store_inv (set_table_name s id name).
Proof.
  intros [Hw Hn]. split; [apply set_table_name_wf, Hw|].
  rewrite set_table_name_ids; exact Hn.
Qed.

Lemma empty_inv : store_inv empty_store.
Proof. split; [exact empty_wf|constructor]. Qed.

(** What an upload does to the store: a successful upload registers the
    table (renamed); every other outcome leaves the store as it was. *)
Lemma upload_store (ingest : string -> option string -> result table)
    (fn : option string) (sh : option string) (w w' : world) (r : response) :
  upload_excel ingest fn sh w = (w', r) ->
  store_inv (w_store w) ->
  store_inv (w_store w') /\
  ((exists id, r = Response 200 (Some id)) \/ w_store w' = w_store w).
Proof.
  intros H Hwf. unfold upload_excel in H.
  destruct fn as [f|]; [|injection H as <- <-; auto].
  destruct (String.eqb f "") eqn:E0; [injection H as <- <-; auto|].
  destruct (negb (existsb (String.eqb (lower (path_suffix f)))
                  allowed_suffixes)); [injection H as <- <-; auto|].
  destruct (ingest (tmp_name (w_tmp_counter w) (lower (path_suffix f))) sh)
    as [t|e] eqn:Ei; simpl in H.
  - injection H as <- <-. simpl. split; [|left; eauto].
    apply set_table_name_inv. exact (exec_inv _ (OpAdd (Ok t)) Hwf).
  - injection H as <- <-. simpl. auto.
Qed.

(** *** The process invariant *)

(** The store is well formed, and a cached agent graph was built for the
    table that is active now. *)
Definition app_inv (a : app) : Prop :=
  store_inv (app_store a) /\
  (app_graph a = None \/ app_graph a = Some (active_id (app_store a))).

Lemma init_app_inv : app_inv init_app.
Proof. split; [exact empty_inv|left; reflexivity]. Qed.

Lemma serve_inv cfg value_error load_ingest upload_ingest invoke
    (a : app) (r : request) :
  app_inv a ->
  app_inv (serve cfg value_error load_ingest upload_ingest invoke a r).
Proof.
  intros [Hwf Hg].
  destruct r as [|id|id|id|i1 i2 k1 k2 jt nm|i1 i2|p sh|fn sh|m| | ];
    simpl; try (split; assumption).
  - unfold set_active_table.
    destruct (set_active (app_store a) id) as [s' ok] eqn:E.
    destruct ok; simpl; [|split; assumption].
    split; [|left; reflexivity]. unfold app_store; simpl.
    replace s' with (exec (app_store a) (OpSetActive id))
      by (simpl; rewrite E; reflexivity).
    apply exec_inv, Hwf.
  - unfold delete_table.
    destruct (remove_table (app_store a) id) as [s' ok] eqn:E.
    destruct ok; simpl; [|split; assumption].
    split; [|left; reflexivity]. unfold app_store; simpl.
    replace s' with (exec (app_store a) (OpRemove id))
      by (simpl; rewrite E; reflexivity).
    apply exec_inv, Hwf.
  - unfold join_tables_h.
    destruct (join_tables (app_store a) i1 i2 k1 k2 jt nm) as [s' res] eqn:E.
    assert (Hw : store_inv s').
    { replace s' with (exec (app_store a) (OpJoin i1 i2 k1 k2 jt nm))
        by (simpl; rewrite E; reflexivity). apply exec_inv, Hwf. }
    destruct res as [[id st]|e]; simpl; split; auto.
    unfold app_store in *; simpl.
    apply join_tables_err_same in E. subst s'. exact Hg.
  - unfold load_excel.
    destruct (load_ingest p sh) as [t|e]; simpl; [|split; assumption].
    split; [|left; reflexivity]. unfold app_store; simpl.
    apply (exec_inv _ (OpAdd (Ok t)) Hwf).
  - unfold upload_excel_h.
    destruct (upload_excel upload_ingest fn sh (app_world a)) as [w' resp] eqn:E.
    destruct (upload_store _ _ _ _ _ _ E Hwf) as [Hw' Hcase].
    assert (Hsplit : app_inv (mk_app w' None)) by (split; [exact Hw'|left; auto]).
    destruct resp as [code tid].
    destruct Hcase as [[id Hid]|Hsame].
    + injection Hid as -> ->. exact Hsplit.
    + destruct (Nat.eqb code 200); cbn; [exact Hsplit|].
      split; [exact Hw'|]. unfold app_store in *; cbn. rewrite Hsame. exact Hg.
  - unfold chat. destruct (is_loaded (app_store a)); simpl; [|split; assumption].
    unfold get_graph.
    destruct (app_graph a) as [g|] eqn:Eg.
    + destruct (invoke g m); cbn; split; auto; rewrite Eg; exact Hg.
    + destruct (invoke (active_id (app_store a)) m); cbn; split; auto.
  - split; [exact (exec_inv _ OpReset Hwf)|left; reflexivity].
Qed.

Lemma serve_all_inv cfg value_error load_ingest upload_ingest invoke
    (rs : list request) (a : app) :
  app_inv a ->
  app_inv (serve_all cfg value_error load_ingest upload_ingest invoke a rs).
Proof.
  revert a; induction rs as [|r rs IH]; intros a H; simpl; auto.
  apply IH, serve_inv, H.
Qed.

Lemma with_store_same (a : app) : with_store a (app_store a) = a.
Proof. destruct a as [[s f c] g]; reflexivity. Qed.

Lemma lookup_filter_self (id : nat) (l : list (nat * table)) :
  lookup id (filter (fun p => negb (Nat.eqb (fst p) id)) l) = None.
Proof.
  unfold lookup. induction l as [|[k t] l IH]; simpl; auto.
  destruct (Nat.eqb k id) eqn:E; simpl; [exact IH|]. rewrite E. exact IH.
Qed.

Lemma lookup_snoc_other (j n : nat) (t : table) (l : list (nat * table)) :
  j <> n -> lookup j (l ++ [(n, t)]) = lookup j l.
Proof.
  intro H. destruct (lookup j l) eqn:E.
  - rewrite lookup_app_some; congruence.
  - rewrite lookup_app_none by exact E. unfold lookup; simpl.
    destruct (Nat.eqb n j) eqn:E2; auto. apply Nat.eqb_eq in E2; congruence.
Qed.

(** The active id of a well-formed store is below the id counter. *)
Lemma active_below (s : store) (x : nat) :
  store_wf s -> active_id s = Some x -> x < next_id s.
Proof.
  intros [Ha Hf] Hx. unfold active_ok in Ha. rewrite Hx in Ha.
  apply lookup_in in Ha as [t Ht]. rewrite Forall_forall in Hf.
  exact (Hf _ Ht).
Qed.

Lemma filter_flag_none (l : list (nat * table)) (k : nat) :
  ~ In k (map fst l) ->
  filter (fun p => Nat.eqb k (fst p)) l = [].
Proof.
  induction l as [|[j t] l IH]; simpl; intro H; auto.
  destruct (Nat.eqb k j) eqn:E.
  - apply Nat.eqb_eq in E; subst. exfalso; apply H; left; reflexivity.
  - apply IH. intro; apply H; right; assumption.
Qed.

Lemma count_flag (l : list (nat * table)) (id : nat) :
  NoDup (map fst l) ->
  List.length (filter (fun p => Nat.eqb id (fst p)) l) =
  match lookup id l with Some _ => 1 | None => 0 end.
Proof.
  unfold lookup. induction l as [|[k t] l IH]; simpl; intro Hn; auto.
  inversion Hn as [|x l' Hk Hl]; subst.
  rewrite (Nat.eqb_sym k id).
  destruct (Nat.eqb id k) eqn:E; simpl.
  - apply Nat.eqb_eq in E; subst. rewrite filter_flag_none by exact Hk.
    reflexivity.
  - apply IH, Hl.
Qed.

Lemma upload_next_mono (ingest : string -> option string -> result table)
    (fn : option string) (sh : option string) (w w' : world) (r : response) :
  upload_excel ingest fn sh w = (w', r) ->
  next_id (w_store w) <= next_id (w_store w').
Proof.
  intros H. unfold upload_excel in H.
  destruct fn as [f|]; [|injection H as <- <-; auto].
  destruct (String.eqb f "") eqn:E0; [injection H as <- <-; auto|].
  destruct (negb (existsb (String.eqb (lower (path_suffix f)))
                  allowed_suffixes)); [injection H as <- <-; auto|].
  destruct (ingest (tmp_name (w_tmp_counter w) (lower (path_suffix f))) sh)
    as [t|e]; simpl in H; injection H as <- <-; simpl; lia.
Qed.

Lemma exec_next_mono (s : store) (o : op) : next_id s <= next_id (exec s o).
Proof.
  destruct o as [src|id|id|id1 id2 k1 k2 jt nm|]; simpl; auto.
  - destruct src; simpl; lia.
  - unfold remove_table. destruct (lookup id (tables s)); simpl; lia.
  - unfold set_active. destruct (lookup id (tables s)); simpl; lia.
  - unfold join_tables.
    destruct (lookup id1 (tables s)), (lookup id2 (tables s)); simpl; try lia.
    destruct (validate_join t t0 k1 k2 jt); simpl; lia.
Qed.

Lemma serve_next_mono cfg value_error load_ingest upload_ingest invoke
    (a : app) (r : request) :
  next_id (app_store a) <=
  next_id (app_store (serve cfg value_error load_ingest upload_ingest invoke a r)).
Proof.
  destruct r as [|id|id|id|i1 i2 k1 k2 jt nm|i1 i2|p sh|fn sh|m| | ];
    simpl; auto.
  - unfold set_active_table.
    destruct (set_active (app_store a) id) as [s' ok] eqn:E.
    destruct ok; simpl; auto. unfold app_store at 2; simpl.
    replace s' with (exec (app_store a) (OpSetActive id))
      by (simpl; rewrite E; reflexivity). apply exec_next_mono.
  - unfold delete_table.
    destruct (remove_table (app_store a) id) as [s' ok] eqn:E.
    destruct ok; simpl; auto. unfold app_store at 2; simpl.
    replace s' with (exec (app_store a) (OpRemove id))
      by (simpl; rewrite E; reflexivity). apply exec_next_mono.
  - unfold join_tables_h.
    destruct (join_tables (app_store a) i1 i2 k1 k2 jt nm) as [s' res] eqn:E.
    assert (Hs : next_id (app_store a) <= next_id s').
    { replace s' with (exec (app_store a) (OpJoin i1 i2 k1 k2 jt nm))
        by (simpl; rewrite E; reflexivity). apply exec_next_mono. }
    destruct res as [[id st]|e]; exact Hs.
  - unfold load_excel.
    destruct (load_ingest p sh) as [t|e]; simpl; auto.
  - unfold upload_excel_h.
    destruct (upload_excel upload_ingest fn sh (app_world a)) as [w' resp] eqn:E.
    apply upload_next_mono in E.
    destruct resp as [code tid]. destruct (Nat.eqb code 200); exact E.
  - unfold chat. destruct (is_loaded (app_store a)); simpl; auto.
    unfold get_graph.
    destruct (app_graph a); [destruct (invoke o m)|
                             destruct (invoke (active_id (app_store a)) m)];
      simpl; auto.
Qed.

Lemma serve_all_next_mono cfg value_error load_ingest upload_ingest invoke
    (rs : list request) (a : app) :
  next_id (app_store a) <=
  next_id (app_store
             (serve_all cfg value_error load_ingest upload_ingest invoke a rs)).
Proof.
  revert a; induction rs as [|r rs IH]; intro a; simpl; auto.
  etransitivity; [apply serve_next_mono|apply IH].
Qed.

Lemma In_lookup (id : nat) (t : table) (l : list (nat * table)) :
  In (id, t) l -> lookup id l <> None.
Proof.
  unfold lookup. induction l as [|[k u] l IH]; simpl; [tauto|].
  intros [H|H].
  - injection H as -> ->. rewrite Nat.eqb_refl. discriminate.
  - destruct (Nat.eqb k id); [discriminate|auto].
Qed.

Lemma lookup_filter_sub (id : nat) (f : nat * table -> bool)
    (l : list (nat * table)) :
  lookup id (filter f l) <> None -> lookup id l <> None.
Proof.
  intro H. apply lookup_in in H as [t Ht]. apply filter_In in Ht as [Ht _].
  exact (In_lookup _ _ _ Ht).
Qed.

Lemma filter_map_length (A B : Type) (f : B -> bool) (g : A -> B)
    (l : list A) :
  List.length (filter f (map g l)) = List.length (filter (fun x => f (g x)) l).
Proof.
  induction l as [|x l IH]; simpl; auto. destruct (f (g x)); simpl; auto.
Qed.

(** A table id that shows up after a step was either there before or is
    at least the counter. *)
Lemma exec_new_ids (s : store) (o : op) (id : nat) :
  lookup id (tables (exec s o)) <> None -> lookup id (tables s) = None ->
  next_id s <= id.
Proof.
  intros H Hn.
  assert (Hsnoc : forall n t, lookup id (tables s ++ [(n, t)]) <> None ->
                              n <= id).
  { intros n t Hl. destruct (Nat.eq_dec id n) as [->|Hne]; [lia|].
    rewrite lookup_snoc_other in Hl by exact Hne. contradiction. }
  destruct o as [src|x|x|id1 id2 k1 k2 jt nm|]; simpl in H.
  - destruct src as [t|e]; simpl in H; [exact (Hsnoc _ _ H)|contradiction].
  - unfold remove_table in H. destruct (lookup x (tables s)); simpl in H;
      [apply lookup_filter_sub in H|]; contradiction.
  - unfold set_active in H. destruct (lookup x (tables s)); contradiction.
  - unfold join_tables in H.
    destruct (lookup id1 (tables s)), (lookup id2 (tables s));
      try contradiction.
    destruct (validate_join t t0 k1 k2 jt); simpl in H;
      [exact (Hsnoc _ _ H)|contradiction].
  - unfold lookup in H; simpl in H. contradiction.
Qed.

Lemma upload_new_ids (ingest : string -> option string -> result table)
    (fn : option string) (sh : option string) (w w' : world) (r : response)
    (id : nat) :
  upload_excel ingest fn sh w = (w', r) ->
  lookup id (tables (w_store w')) <> None ->
  lookup id (tables (w_store w)) = None ->
  next_id (w_store w) <= id.
Proof.
  intros H Hl Hn. unfold upload_excel in H.
  destruct fn as [f|]; [|injection H as <- <-; contradiction].
  destruct (String.eqb f "") eqn:E0; [injection H as <- <-; contradiction|].
  destruct (negb (existsb (String.eqb (lower (path_suffix f)))
                  allowed_suffixes)); [injection H as <- <-; contradiction|].
  destruct (ingest (tmp_name (w_tmp_counter w) (lower (path_suffix f))) sh)
    as [t|e]; simpl in H; injection H as <- <-; cbn [w_store] in Hl;
    [|contradiction].
  rewrite lookup_set_table_name in Hl. cbn [tables] in Hl.
  apply (exec_new_ids _ (OpAdd (Ok t))); [simpl|exact Hn].
  destruct (lookup id (tables (w_store w) ++ [(next_id (w_store w), t)])).
  - discriminate.
  - contradiction.
Qed.

Lemma serve_new_ids cfg value_error load_ingest upload_ingest invoke
    (a : app) (r : request) (id : nat) :
  lookup id (tables (app_store
    (serve cfg value_error load_ingest upload_ingest invoke a r))) <> None ->
  lookup id (tables (app_store a)) = None ->
  next_id (app_store a) <= id.
Proof.
  intros H Hn.
  destruct r as [|x|x|x|i1 i2 k1 k2 jt nm|i1 i2|p sh|fn sh|m| | ];
    simpl in H; try contradiction.
  - unfold set_active_table in H.
    destruct (set_active (app_store a) x) as [s' ok] eqn:E.
    destruct ok; simpl in H; [|contradiction].
    apply (exec_new_ids _ (OpSetActive x)); [|exact Hn].
    simpl; rewrite E; exact H.
  - unfold delete_table in H.
    destruct (remove_table (app_store a) x) as [s' ok] eqn:E.
    destruct ok; simpl in H; [|contradiction].
    apply (exec_new_ids _ (OpRemove x)); [|exact Hn].
    simpl; rewrite E; exact H.
  - unfold join_tables_h in H.
    destruct (join_tables (app_store a) i1 i2 k1 k2 jt nm) as [s' res] eqn:E.
    apply (exec_new_ids _ (OpJoin i1 i2 k1 k2 jt nm)); [|exact Hn].
    simpl; rewrite E. destruct res as [[? ?]|?]; exact H.
  - unfold load_excel in H.
    destruct (load_ingest p sh) as [t|e]; simpl in H; [|contradiction].
    exact (exec_new_ids _ (OpAdd (Ok t)) _ H Hn).
  - unfold upload_excel_h in H.
    destruct (upload_excel upload_ingest fn sh (app_world a)) as [w' resp] eqn:E.
    destruct resp as [code tid].
    apply (upload_new_ids _ _ _ _ _ _ _ E); [|exact Hn].
    destruct (Nat.eqb code 200); exact H.
  - unfold chat in H. destruct (is_loaded (app_store a)); simpl in H;
      [|contradiction].
    unfold get_graph in H.
    destruct (app_graph a); [destruct (invoke o m)|
                             destruct (invoke (active_id (app_store a)) m)];
      contradiction.
Qed.

End HandlerFacts.

Module Claims.
Import Value ValueFacts Join JoinFacts Store StoreFacts ColumnFacts
  MatchFacts Examples.
Local Open Scope nat_scope.

(** C1: on the spec's example tables joined on [id], the inner join yields
    the single row combining [name:"b"] and [val:"x"]; the left join yields
    that row and the id=1 row with a null [val]; the outer join also yields
    the id=3 row with a null [name].  The table2 [id] column becomes
    [id_2]. *)
Theorem join_example_rows :
  let rows_of jt := option_map tbl_rows
        (lookup 2 (tables (fst (ex_join jt)))) in
  option_map tbl_columns (lookup 2 (tables (fst (ex_join "inner"))))
    = Some ["id"; "name"; "id_2"; "val"]%string /\
  rows_of "inner"%string =
    Some [[("id", VInt 2); ("name", VStr "b");
           ("id_2", VInt 2); ("val", VStr "x")]]%string /\
  rows_of "left"%string =
    Some [[("id", VInt 2); ("name", VStr "b");
           ("id_2", VInt 2); ("val", VStr "x")];
          [("id", VInt 1); ("name", VStr "a");
           ("id_2", VNull); ("val", VNull)]]%string /\
  rows_of "outer"%string =
    Some [[("id", VInt 2); ("name", VStr "b");
           ("id_2", VInt 2); ("val", VStr "x")];
          [("id", VInt 1); ("name", VStr "a");
           ("id_2", VNull); ("val", VNull)];
          [("id", VNull); ("name", VNull);
           ("id_2", VInt 3); ("val", VStr "y")]]%string.
Proof. vm_compute. repeat split. Qed.

(** C2: after any sequence of add, remove, set-active, join and reset
    operations from the empty store, the active id is unset or names a
    stored table; removing the active table leaves no active table; setting
    an unknown id as active fails and leaves the store as it was. *)
Theorem active_pointer_valid (ops : list op) :
  let s := run empty_store ops in
  active_ok s /\
  (forall id, active_id s = Some id ->
     active_id (fst (remove_table s id)) = None /\
     get_active (fst (remove_table s id)) = None) /\
  (forall id, lookup id (tables s) = None -> set_active s id = (s, false)).
Proof.
  intro s. destruct (reachable_wf ops) as [Hok _]. fold s in Hok.
  split; [exact Hok|split].
  - intros id Ha. unfold active_ok in Hok. rewrite Ha in Hok.
    unfold remove_table. destruct (lookup id (tables s)); [|congruence].
    simpl. rewrite Ha. simpl. rewrite Nat.eqb_refl. split; reflexivity.
  - intros id Hn. unfold set_active. rewrite Hn. reflexivity.
Qed.

(** C3: once both tables are found, mismatched or empty key lists, a key
    column missing from its table, or an unknown join type make
    [join_tables] fail with [ValidationError] and return the store
    unchanged, with no table registered. *)
Theorem join_validation_atomic (s : store) (id1 id2 : nat) (t1 t2 : table)
    (keys1 keys2 : list string) (join_type new_name : string) :
  lookup id1 (tables s) = Some t1 ->
  lookup id2 (tables s) = Some t2 ->
  (List.length keys1 <> List.length keys2 \/ keys1 = [] \/ keys2 = [] \/
   (exists k, In k keys1 /\ ~ In k (tbl_columns t1)) \/
   (exists k, In k keys2 /\ ~ In k (tbl_columns t2)) \/
   parse_join_type join_type = None) ->
  join_tables s id1 id2 keys1 keys2 join_type new_name = (s, Err ValidationError).
Proof.
  intros H1 H2 Hbad. unfold join_tables. rewrite H1, H2.
  unfold validate_join.
  destruct (Nat.eqb (List.length keys1) (List.length keys2)) eqn:Elen;
    [|reflexivity]. simpl.
  apply Nat.eqb_eq in Elen.
  destruct keys1 as [|k ks] eqn:Ek; [reflexivity|].
  destruct (forallb (has_column t1) (k :: ks) && forallb (has_column t2) keys2)
    eqn:Ecols; [|reflexivity].
  apply andb_true_iff in Ecols as [C1 C2].
  rewrite forallb_forall in C1, C2.
  destruct (parse_join_type join_type) eqn:Ej; [|reflexivity].
  exfalso.
  destruct Hbad as [H|[H|[H|[[x [Hx Hn]]|[[x [Hx Hn]]|H]]]]].
  - contradiction.
  - discriminate.
  - subst keys2. discriminate.
  - apply Hn, has_column_In, C1, Hx.
  - apply Hn, has_column_In, C2, Hx.
  - discriminate.
Qed.

(** C4: for every join type, a pair of rows is joined exactly when both
    rows are present and every paired key column holds equal cells; cell
    equality never holds for null, compares int and float numerically, and
    compares strings, booleans and dates exactly. *)
Theorem join_match_semantics :
  (forall jt keys1 keys2 t1 t2 r1 r2,
     List.length keys1 = List.length keys2 ->
     (In (Both r1 r2) (join_engine jt keys1 keys2 t1 t2) <->
      In r1 t1 /\ In r2 t2 /\
      (forall k, k < List.length keys1 ->
         val_eq (row_get r1 (nth k keys1 ""%string))
                (row_get r2 (nth k keys2 ""%string)) = true))) /\
  (forall v, val_eq VNull v = false /\ val_eq v VNull = false) /\
  (forall z q, val_eq (VInt z) (VFloat q) = true <-> (inject_Z z == q)%Q) /\
  (forall z q, val_eq (VFloat q) (VInt z) = true <-> (q == inject_Z z)%Q) /\
  (forall x y, val_eq (VInt x) (VInt y) = true <-> x = y) /\
  (forall p q, val_eq (VFloat p) (VFloat q) = true <-> (p == q)%Q) /\
  (forall a b, val_eq (VStr a) (VStr b) = true <-> a = b) /\
  (forall a b, val_eq (VBool a) (VBool b) = true <-> a = b) /\
  (forall a b, val_eq (VDate a) (VDate b) = true <-> a = b).
Proof.
  split; [|split; [|split; [|split; [|split; [|split; [|split; [|split]]]]]]].
  - intros jt keys1 keys2 t1 t2 r1 r2 Hlen.
    rewrite (join_engine_nested _ _ _ _ _ Hlen), in_nested_both,
      (rows_match_nth _ _ _ _ Hlen). tauto.
  - intros []; simpl; auto.
  - intros z q; simpl; apply Qeq_bool_iff.
  - intros z q; simpl; apply Qeq_bool_iff.
  - intros x y; simpl; apply Z.eqb_eq.
  - intros x y; simpl; apply Qeq_bool_iff.
  - intros a b; simpl; apply String.eqb_eq.
  - intros a b; simpl; split; [apply Bool.eqb_prop|intros ->; apply Bool.eqb_reflx].
  - intros a b; simpl; apply Z.eqb_eq.
Qed.

(** C5: on any reachable store, [add_table] makes the new table active
    exactly when no table was active and otherwise keeps the active id; a
    [join_tables] call never changes the active id, on any store. *)
Theorem active_frame_add_join :
  (forall ops t,
     let s := run empty_store ops in
     let s' := fst (add_table s (Ok t)) in
     snd (add_table s (Ok t)) = Ok (next_id s, structure_of t) /\
     (active_id s' = Some (next_id s) <-> active_id s = None) /\
     (active_id s = None \/ active_id s' = active_id s)) /\
  (forall s id1 id2 keys1 keys2 join_type new_name,
     active_id (fst (join_tables s id1 id2 keys1 keys2 join_type new_name))
     = active_id s).
Proof.
  split.
  - intros ops t s s'. destruct (reachable_wf ops) as [Hok Hfresh].
    fold s in Hok, Hfresh. unfold s', add_table; simpl.
    split; [reflexivity|].
    destruct (active_id s) as [a|] eqn:Ea.
    + split; [|right; reflexivity]. split; [|discriminate].
      intro E; injection E as E; subst a.
      unfold active_ok in Hok; rewrite Ea in Hok.
      apply lookup_in in Hok as [t' Hin].
      rewrite Forall_forall in Hfresh. apply Hfresh in Hin. simpl in Hin. lia.
    + split; [split; reflexivity|left; reflexivity].
  - intros s id1 id2 keys1 keys2 jts nm. unfold join_tables.
    destruct (lookup id1 (tables s)), (lookup id2 (tables s)); auto.
    destruct (validate_join t t0 keys1 keys2 jts); reflexivity.
Qed.

(** C6: removing an id the store does not hold returns false and leaves the
    store, its tables and its active id, unchanged. *)
Theorem remove_unknown_unchanged (s : store) (id : nat) :
  lookup id (tables s) = None -> remove_table s id = (s, false).
Proof. intro H. unfold remove_table. rewrite H. reflexivity. Qed.

(** C7: a successful join registers a table whose columns are table1's
    columns followed by table2's, each table2 column keeping its name
    unless table1 has it, in which case it gets a suffix [_...] that table1
    does not use; its rows are the matched pairs in table1-outer /
    table2-inner order, then the unmatched left rows (left, outer), then the
    unmatched right rows (right, outer). *)
Theorem join_output_layout (ops : list op) (id1 id2 : nat)
    (keys1 keys2 : list string) (join_type new_name : string)
    (s' : store) (nid : nat) (st : structure) :
  join_tables (run empty_store ops) id1 id2 keys1 keys2 join_type new_name
    = (s', Ok (nid, st)) ->
  exists t1 t2 jt t,
    lookup id1 (tables (run empty_store ops)) = Some t1 /\
    lookup id2 (tables (run empty_store ops)) = Some t2 /\
    parse_join_type join_type = Some jt /\
    lookup nid (tables s') = Some t /\
    tbl_columns t = tbl_columns t1
                    ++ rename_columns (tbl_columns t1) (tbl_columns t2) /\
    Forall2 (renamed_ok (tbl_columns t1)) (tbl_columns t2)
            (rename_columns (tbl_columns t1) (tbl_columns t2)) /\
    tbl_rows t = map (materialize (tbl_columns t1) (tbl_columns t2))
                     (join_nested jt keys1 keys2 (tbl_rows t1) (tbl_rows t2)).
Proof.
  set (s := run empty_store ops). intro H.
  destruct (reachable_wf ops) as [_ Hfresh]. fold s in Hfresh.
  unfold join_tables in H.
  destruct (lookup id1 (tables s)) as [t1|] eqn:E1; [|discriminate].
  destruct (lookup id2 (tables s)) as [t2|] eqn:E2; [|discriminate].
  destruct (validate_join t1 t2 keys1 keys2 join_type) as [jt|e] eqn:Ev;
    [|discriminate].
  injection H as <- <- _.
  unfold validate_join in Ev.
  destruct (Nat.eqb (List.length keys1) (List.length keys2)) eqn:Elen;
    simpl in Ev; [|discriminate].
  apply Nat.eqb_eq in Elen.
  destruct keys1; [discriminate|].
  destruct (forallb (has_column t1) (s0 :: keys1)
            && forallb (has_column t2) keys2); [|discriminate].
  destruct (parse_join_type join_type) as [jt'|] eqn:Ej; [|discriminate].
  injection Ev as <-.
  exists t1, t2, jt', (join_table t1 t2 (s0 :: keys1) keys2 jt' new_name).
  repeat split; auto.
  - simpl. apply lookup_fresh. exact Hfresh.
  - apply rename_from_ok.
  - simpl. rewrite join_engine_nested by exact Elen. reflexivity.
Qed.

(** C8: [preview t n] is the first [n] rows of [t] in order (all rows when
    there are fewer), it is empty on an empty table, and the default bound
    of [ExcelConfig] is 5. *)
Theorem preview_first_rows (t : table) (max_rows : nat) :
  (exists rest, tbl_rows t = preview t max_rows ++ rest) /\
  List.length (preview t max_rows) = Nat.min max_rows (List.length (tbl_rows t)) /\
  (List.length (tbl_rows t) <= max_rows -> preview t max_rows = tbl_rows t) /\
  (tbl_rows t = [] -> preview t max_rows = []) /\
  max_preview_rows default_ExcelConfig = 5%Z /\
  preview_default default_ExcelConfig t = preview t 5.
Proof.
  unfold preview. repeat split.
  - exists (skipn max_rows (tbl_rows t)). symmetry; apply firstn_skipn.
  - apply length_firstn.
  - intro H. apply firstn_all2. exact H.
  - intro H. rewrite H. apply firstn_nil.
Qed.

(** C9: a request without a file name, or whose file name's lower-cased
    suffix is not [.xlsx], [.xls] or [.xlsm], is answered 400 before any
    temporary file is written or [add_table] is called: the store, the files
    and the temporary-name counter are all unchanged. *)
Theorem upload_rejects_bad_suffix
    (ingest : string -> option string -> result table)
    (sheet_name : option string) (w : Api.world) :
  Api.upload_excel ingest None sheet_name w = (w, Api.Response 400 None) /\
  Api.upload_excel ingest (Some ""%string) sheet_name w
    = (w, Api.Response 400 None) /\
  (forall filename,
     ~ In (Api.lower (Api.path_suffix filename)) Api.allowed_suffixes ->
     Api.upload_excel ingest (Some filename) sheet_name w
     = (w, Api.Response 400 None)).
Proof.
  split; [reflexivity|split; [reflexivity|]].
  intros fn Hbad. unfold Api.upload_excel.
  destruct (String.eqb fn "") eqn:E; [reflexivity|].
  destruct (existsb (String.eqb (Api.lower (Api.path_suffix fn)))
              Api.allowed_suffixes) eqn:Ex; [|reflexivity].
  apply existsb_eqb_In in Ex. contradiction.
Qed.

(** C10: for any classification of Python's Unicode [\w] under which "$"
    and "}" are not word characters, [_expand_env_vars] computes
    [re.sub] of the pattern [\$\{(\w+)\}]: at every position a
    placeholder [${VAR}] ([VAR] a non-empty run of word characters) is
    replaced by the variable's value, or by the empty string when it is
    unset, and any other character is copied; [_process_config_dict]
    keeps the keys and expands string values, recurses into nested dicts
    and copies lists and other values as they are. *)
Theorem expand_env_vars_spec (is_word_char : N -> bool) (e : Config.env)
    (Hdollar : is_word_char Config.dollar = false)
    (Hrbrace : is_word_char Config.rbrace = false) :
  (forall s, Config._expand_env_vars is_word_char e s =
             Config.re_sub_spec is_word_char e s) /\
  (forall v rest,
     v <> [] -> forallb is_word_char v = true ->
     Config._expand_env_vars is_word_char e
       (Config.txt "${" ++ v ++ Config.txt "}" ++ rest) =
     (match e v with Some x => x | None => [] end)
       ++ Config._expand_env_vars is_word_char e rest) /\
  (forall c rest,
     ~ (exists v rest', v <> [] /\ forallb is_word_char v = true /\
          c :: rest = Config.txt "${" ++ v ++ Config.txt "}" ++ rest') ->
     Config._expand_env_vars is_word_char e (c :: rest) =
     c :: Config._expand_env_vars is_word_char e rest) /\
  (forall config,
     map fst (Config._process_config_dict is_word_char e config) = map fst config /\
     Forall2 (fun kv kv' =>
                snd kv' = match snd kv with
                          | Config.CStr s =>
                              Config.CStr (Config._expand_env_vars is_word_char e s)
                          | Config.CDict d =>
                              Config.CDict (Config._process_config_dict is_word_char e d)
                          | other => other
                          end)
             config (Config._process_config_dict is_word_char e config)).
Proof.
  split; [|split; [|split]].
  - intro s. apply ConfigFacts.expand_env_vars_re_sub; assumption.
  - intros v rest Hne Hw.
    rewrite !ConfigFacts.expand_env_vars_re_sub by assumption.
    change (Config.txt "${" ++ v ++ Config.txt "}" ++ rest) with
      (Config.dollar :: Config.lbrace :: v ++ Config.rbrace :: rest).
    rewrite ConfigFacts.re_sub_cons.
    rewrite ConfigFacts.match_at_placeholder by assumption. reflexivity.
  - intros c rest Hno.
    rewrite !ConfigFacts.expand_env_vars_re_sub by assumption.
    rewrite ConfigFacts.re_sub_cons.
    destruct (Config.match_at is_word_char (c :: rest)) as [[w rest']|] eqn:Em;
      [|reflexivity].
    exfalso. apply Hno. destruct (ConfigFacts.match_at_some _ _ _ _ Em) as [Hs [Hne Hw]].
    exists w, rest'. repeat split; assumption.
  - intro config. split.
    + unfold Config._process_config_dict. rewrite map_map. simpl.
      apply map_ext. reflexivity.
    + unfold Config._process_config_dict at 1.
      induction config as [|[k v] config IH]; simpl; constructor; auto.
      simpl. destruct v; auto. apply ConfigFacts.process_value_dict.
Qed.

(** *** Witnesses: the hypotheses above hold at concrete inputs *)

Local Open Scope string_scope.

Lemma active_pointer_valid_witness :
  active_id ex_store = Some 0 /\
  active_id (fst (remove_table ex_store 0)) = None /\
  set_active ex_store 7 = (ex_store, false).
Proof.
  split; [reflexivity|split].
  - exact (proj1 (proj1 (proj2 (active_pointer_valid ex_ops)) 0 eq_refl)).
  - exact (proj2 (proj2 (active_pointer_valid ex_ops)) 7 eq_refl).
Defined.

Lemma join_validation_atomic_witness :
  join_tables ex_store 0 1 ["id"%string] [] "inner" "joined"
  = (ex_store, Err ValidationError).
Proof.
  apply (join_validation_atomic ex_store 0 1 ex_table1 ex_table2);
    [reflexivity|reflexivity|].
  left. simpl. discriminate.
Defined.

Lemma join_match_semantics_witness :
  In (Both [("id", VInt 2); ("name", VStr "b")]%string
           [("id", VFloat (2 # 1)); ("val", VStr "x")]%string)
     (join_engine JInner ["id"%string] ["id"%string]
        (tbl_rows ex_table1)
        [[("id", VFloat (2 # 1)); ("val", VStr "x")]%string]).
Proof.
  apply (proj2 (proj1 join_match_semantics JInner ["id"%string] ["id"%string]
                  _ _ _ _ eq_refl)).
  split; [simpl; auto|split; [simpl; auto|]].
  intros k Hk. simpl in Hk. destruct k; [reflexivity|lia].
Defined.

Lemma remove_unknown_unchanged_witness :
  remove_table ex_store 9 = (ex_store, false).
Proof. apply remove_unknown_unchanged. reflexivity. Defined.

Lemma join_output_layout_witness :
  exists t1 t2 jt t,
    lookup 0 (tables (run empty_store ex_ops)) = Some t1 /\
    lookup 1 (tables (run empty_store ex_ops)) = Some t2 /\
    parse_join_type "left" = Some jt /\
    lookup 2 (tables (fst (ex_join "left"))) = Some t /\
    tbl_columns t = app (tbl_columns t1)
                    (rename_columns (tbl_columns t1) (tbl_columns t2)) /\
    Forall2 (renamed_ok (tbl_columns t1)) (tbl_columns t2)
            (rename_columns (tbl_columns t1) (tbl_columns t2)) /\
    tbl_rows t = map (materialize (tbl_columns t1) (tbl_columns t2))
                     (join_nested jt ["id"%string] ["id"%string]
                        (tbl_rows t1) (tbl_rows t2)).
Proof.
  apply (join_output_layout ex_ops 0 1 ["id"%string] ["id"%string] "left"
           "joined" (fst (ex_join "left")) 2
           (structure_of (join_table ex_table1 ex_table2 ["id"%string]
                            ["id"%string] JLeft "joined"))).
  vm_compute. reflexivity.
Defined.

Lemma preview_first_rows_witness :
  preview ex_table1 1 = [[("id", VInt 1); ("name", VStr "a")]%string] /\
  preview {| tbl_name := "empty"; tbl_source := "empty.xlsx";
             tbl_columns := ["id"%string]; tbl_rows := [] |} 5 = [].
Proof.
  split.
  - destruct (preview_first_rows ex_table1 1) as [_ [_ [_ [_ _]]]].
    reflexivity.
  - exact (proj1 (proj2 (proj2 (proj2 (preview_first_rows
             {| tbl_name := "empty"; tbl_source := "empty.xlsx";
                tbl_columns := ["id"%string]; tbl_rows := [] |} 5)))) eq_refl).
Defined.

Lemma upload_rejects_bad_suffix_witness :
  Api.upload_excel (fun _ _ => Err IngestionError) (Some "report.CSV"%string)
    None (Api.mk_world ex_store [] 0)
  = (Api.mk_world ex_store [] 0, Api.Response 400 None).
Proof.
  apply (proj2 (proj2 (upload_rejects_bad_suffix _ None _))).
  intro H. apply existsb_eqb_In in H. vm_compute in H. discriminate.
Defined.

Lemma expand_env_vars_spec_witness :
  Config._expand_env_vars ex_is_word ex_env
    (Config.txt "${" ++ [201%N] ++ Config.txt "}" ++ Config.txt "x")%list = Config.txt "x" /\
  Config._expand_env_vars ex_is_word ex_env (Config.txt "$${HOME}")
    = Config.txt "$/root".
Proof.
  destruct (expand_env_vars_spec ex_is_word ex_env eq_refl eq_refl)
    as [Hre [Hph [Hcopy Hdict]]].
  split.
  - rewrite (Hph [201%N] (Config.txt "x")) by (discriminate || reflexivity).
    reflexivity.
  - rewrite Hre. vm_compute. reflexivity.
Defined.

End Claims.

(** ** Further properties of the handlers and of the configuration *)

Module Extras.
Import Value Join Store StoreFacts Api Handlers HandlerFacts Examples.
Local Open Scope nat_scope.

(** X1 ([set_active_table]): an unknown id is refused with 404 and
    changes nothing; a known id becomes active with the tables untouched,
    the cached graph is dropped, and the reply carries that table's
    structure and preview. *)
Theorem set_active_table_outcome (cfg : ExcelConfig) (a : app) (id : nat) :
  match lookup id (tables (app_store a)) with
  | None => set_active_table cfg a id = (a, HttpError 404)
  | Some t =>
      tables (app_store (fst (set_active_table cfg a id))) =
        tables (app_store a) /\
      active_id (app_store (fst (set_active_table cfg a id))) = Some id /\
      app_graph (fst (set_active_table cfg a id)) = None /\
      snd (set_active_table cfg a id) =
        Reply (Some (structure_of t), Some (preview_default cfg t),
               list_tables (app_store (fst (set_active_table cfg a id))))
  end.
Proof.
  unfold set_active_table, set_active.
  destruct (lookup id (tables (app_store a))) as [t|] eqn:E; [|reflexivity].
  simpl. unfold get_active; simpl. rewrite E.
  split; [reflexivity|split; [reflexivity|split; reflexivity]].
Qed.

(** X2 ([delete_table]): an unknown id is refused with 404 and changes
    nothing; otherwise exactly that table is gone (also from the returned
    summaries), the active id is cleared if it was that table and kept
    otherwise, and the cached graph is dropped. *)
Theorem delete_table_outcome (a : app) (id : nat) :
  match lookup id (tables (app_store a)) with
  | None => delete_table a id = (a, HttpError 404)
  | Some _ =>
      lookup id (tables (app_store (fst (delete_table a id)))) = None /\
      (forall j, j <> id ->
         lookup j (tables (app_store (fst (delete_table a id)))) =
         lookup j (tables (app_store a))) /\
      Forall (fun ts => ts_id ts <> id)
        (list_tables (app_store (fst (delete_table a id)))) /\
      (active_id (app_store a) = Some id ->
         active_id (app_store (fst (delete_table a id))) = None) /\
      (active_id (app_store a) <> Some id ->
         active_id (app_store (fst (delete_table a id))) =
         active_id (app_store a)) /\
      app_graph (fst (delete_table a id)) = None /\
      snd (delete_table a id) =
        Reply (list_tables (app_store (fst (delete_table a id))),
               active_id (app_store (fst (delete_table a id))))
  end.
Proof.
  unfold delete_table, remove_table.
  destruct (lookup id (tables (app_store a))) as [t|] eqn:E; [|reflexivity].
  cbn [fst snd negb].
  split; [apply lookup_filter_self|].
  split; [intros j Hj; apply lookup_filter_other; exact Hj|].
  split.
  { apply Forall_forall. intros ts Hts. unfold list_tables in Hts.
    apply in_map_iff in Hts as [[k u] [<- Hin]].
    apply filter_In in Hin as [_ Hk]. simpl in *. intro Heq; subst.
    rewrite Nat.eqb_refl in Hk. discriminate. }
  split; [intro Ha; simpl; rewrite Ha; simpl; rewrite Nat.eqb_refl; reflexivity|].
  split.
  { intro Ha. simpl. destruct (active_id (app_store a)) as [x|]; simpl; auto.
    destruct (Nat.eqb x id) eqn:Ex; auto.
    apply Nat.eqb_eq in Ex; subst; contradiction. }
  split; reflexivity.
Qed.

(** X3 ([get_table_columns]): the only error is 404, given exactly when
    the id is unknown or the table has no columns; otherwise the reply is
    the id with the table's columns. *)
Theorem get_table_columns_outcome (a : app) (id : nat) :
  (forall c, get_table_columns_h a id = HttpError c -> c = 404) /\
  (get_table_columns_h a id = HttpError 404 <->
   forall t, lookup id (tables (app_store a)) = Some t -> tbl_columns t = []) /\
  (forall t, lookup id (tables (app_store a)) = Some t ->
   tbl_columns t <> [] ->
   get_table_columns_h a id = Reply (id, tbl_columns t)).
Proof.
  unfold get_table_columns_h, get_table_columns.
  destruct (lookup id (tables (app_store a))) as [t|] eqn:E.
  - destruct (tbl_columns t) as [|c cs] eqn:Ec.
    + split; [intros c H; injection H; auto|].
      split; [split; [intros _ u Hu; injection Hu as Hu; subst u; exact Ec
                     |reflexivity]|].
      intros u Hu Hne. injection Hu as Hu; subst u. contradiction.
    + split; [intros c' H; discriminate|].
      split; [split; [discriminate|intro H; specialize (H t eq_refl); congruence]|].
      intros u Hu _. injection Hu as Hu; subst u. rewrite Ec. reflexivity.
  - split; [intros c H; injection H; auto|].
    split; [split; [intros _ u Hu; discriminate|reflexivity]|].
    intros u Hu; discriminate.
Qed.

(** X4 ([join_tables]): a failed join answers 400 when the loader's error
    is a [ValueError] and 500 otherwise, and leaves the whole process
    state, graph cache included, as it was. *)
Theorem join_tables_h_error (value_error : error -> bool) (a a' : app)
    (i1 i2 : nat) (k1 k2 : list string) (jt nm : string) (c : nat) :
  join_tables_h value_error a i1 i2 k1 k2 jt nm = (a', HttpError c) ->
  a' = a /\
  exists e, snd (join_tables (app_store a) i1 i2 k1 k2 jt nm) = Err e /\
            c = (if value_error e then 400 else 500).
Proof.
  unfold join_tables_h.
  destruct (join_tables (app_store a) i1 i2 k1 k2 jt nm)
    as [s' [[id st]|e]] eqn:E; intro H; [discriminate|].
  injection H as Ha Hc. subst a' c.
  pose proof (join_tables_err_same _ _ _ _ _ _ _ _ _ E) as Hs. subst s'.
  split; [apply with_store_same|]. exists e. split; reflexivity.
Qed.

(** X5 ([join_tables]): a successful join registers the result under the
    next id, touches no other table, keeps the active table (the new one
    is not marked active in the returned summaries) and drops the cached
    graph. *)
Theorem join_tables_h_success (value_error : error -> bool) (a a' : app)
    (i1 i2 : nat) (k1 k2 : list string) (jt nm : string) (id : nat)
    (st : structure) (l : list table_summary) :
  store_wf (app_store a) ->
  join_tables_h value_error a i1 i2 k1 k2 jt nm = (a', Reply (id, st, l)) ->
  id = next_id (app_store a) /\
  active_id (app_store a') = active_id (app_store a) /\
  app_graph a' = None /\
  (forall j, j <> id ->
     lookup j (tables (app_store a')) = lookup j (tables (app_store a))) /\
  (exists t, lookup id (tables (app_store a')) = Some t /\
             st = structure_of t) /\
  l = list_tables (app_store a') /\
  (forall ts, In ts l -> ts_id ts = id -> ts_is_active ts = false).
Proof.
  intros Hwf H. unfold join_tables_h in H.
  destruct (join_tables (app_store a) i1 i2 k1 k2 jt nm)
    as [s' [[id0 st0]|e]] eqn:E; [|discriminate].
  injection H as Ha Hid Hst Hl. subst a' id0 st0 l.
  unfold join_tables in E.
  destruct (lookup i1 (tables (app_store a))) as [t1|],
           (lookup i2 (tables (app_store a))) as [t2|]; try discriminate.
  destruct (validate_join t1 t2 k1 k2 jt) as [jt'|e]; [|discriminate].
  injection E as Hs' Hid Hst. subst s' id st.
  set (t := join_table t1 t2 k1 k2 jt' nm).
  assert (Hact : opt_nat_eqb (active_id (app_store a))
                   (Some (next_id (app_store a))) = false).
  { destruct (active_id (app_store a)) as [x|] eqn:Ex; [|reflexivity].
    simpl. apply Nat.eqb_neq. pose proof (active_below _ _ Hwf Ex). lia. }
  split; [reflexivity|].
  split; [reflexivity|].
  split; [reflexivity|].
  split; [intros j Hj; apply lookup_snoc_other; exact Hj|].
  split; [exists t; split; [apply lookup_fresh, (proj2 Hwf)|reflexivity]|].
  split; [reflexivity|].
  intros ts Hts Hid. unfold list_tables in Hts.
  apply in_map_iff in Hts as [[k u] [<- _]]. simpl in *. subst k.
  exact Hact.
Qed.

(** X6 ([suggest_join]): it never answers 400 (an advisor's [ValueError]
    is a 500 too); 404 is given exactly when one of the tables is
    missing, whatever the advisor would do. *)
Theorem suggest_join_outcome {A : Type}
    (advisor : structure -> structure -> py_result A) (a : app)
    (i1 i2 : nat) :
  (forall c, suggest_join advisor a i1 i2 = HttpError c -> c = 404 \/ c = 500) /\
  (suggest_join advisor a i1 i2 = HttpError 404 <->
   lookup i1 (tables (app_store a)) = None \/
   lookup i2 (tables (app_store a)) = None) /\
  (forall t1 t2,
   lookup i1 (tables (app_store a)) = Some t1 ->
   lookup i2 (tables (app_store a)) = Some t2 ->
   advisor (structure_of t1) (structure_of t2) = PyRaise ValueError ->
   suggest_join advisor a i1 i2 = HttpError 500).
Proof.
  unfold suggest_join.
  destruct (lookup i1 (tables (app_store a))) as [t1|],
           (lookup i2 (tables (app_store a))) as [t2|].
  - destruct (advisor (structure_of t1) (structure_of t2)) as [x|e] eqn:Ea.
    + split; [intros c H; discriminate|].
      split; [split; [discriminate|intros [H|H]; discriminate]|].
      intros u1 u2 H1 H2 H3. injection H1 as <-; injection H2 as <-.
      rewrite Ea in H3. discriminate.
    + split; [intros c H; injection H as <-; right; reflexivity|].
      split; [split; [discriminate|intros [H|H]; discriminate]|].
      intros u1 u2 _ _ _. reflexivity.
  - split; [intros c H; injection H as <-; left; reflexivity|].
    split; [split; [intros _; right; reflexivity|reflexivity]|].
    intros u1 u2 _ H; discriminate.
  - split; [intros c H; injection H as <-; left; reflexivity|].
    split; [split; [intros _; left; reflexivity|reflexivity]|].
    intros u1 u2 H; discriminate.
  - split; [intros c H; injection H as <-; left; reflexivity|].
    split; [split; [intros _; left; reflexivity|reflexivity]|].
    intros u1 u2 H; discriminate.
Qed.

(** X7 ([load_excel]): when the loader raises, the process state is left
    as it was; a missing file is a 404, a [ValueError] a 400 and anything
    else a 500. *)
Theorem load_excel_failure (cfg : ExcelConfig)
    (ingest : string -> option string -> py_result table) (a : app)
    (path : string) (sheet : option string) (e : py_exc) :
  ingest path sheet = PyRaise e ->
  load_excel cfg ingest a path sheet = (a, HttpError (load_error_code e)) /\
  (load_error_code e = 404 <-> e = FileNotFoundError) /\
  (load_error_code e = 400 <-> e = ValueError) /\
  (load_error_code e = 500 <-> e = OtherException).
Proof.
  intro H. unfold load_excel. rewrite H.
  split; [reflexivity|].
  destruct e; simpl; repeat split; try reflexivity; discriminate.
Qed.

(** X8 ([load_excel]): a parsed file is stored under the next id, no
    other table changes, the cached graph is dropped, and the preview in
    the reply is that of the table active after the load: the table that
    was active before when there was one, the new table otherwise. *)
Theorem load_excel_success (cfg : ExcelConfig)
    (ingest : string -> option string -> py_result table) (a : app)
    (path : string) (sheet : option string) (t : table) :
  store_wf (app_store a) ->
  ingest path sheet = PyOk t ->
  lookup (next_id (app_store a))
    (tables (app_store (fst (load_excel cfg ingest a path sheet)))) = Some t /\
  (forall j, j <> next_id (app_store a) ->
     lookup j (tables (app_store (fst (load_excel cfg ingest a path sheet)))) =
     lookup j (tables (app_store a))) /\
  app_graph (fst (load_excel cfg ingest a path sheet)) = None /\
  w_files (app_world (fst (load_excel cfg ingest a path sheet))) =
    w_files (app_world a) /\
  snd (load_excel cfg ingest a path sheet) =
    Reply (next_id (app_store a), structure_of t,
           Some (preview_default cfg
                   (match get_active (app_store a) with
                    | Some u => u
                    | None => t
                    end)),
           list_tables (app_store (fst (load_excel cfg ingest a path sheet)))).
Proof.
  intros Hwf H. unfold load_excel. rewrite H. simpl.
  split; [apply lookup_fresh, (proj2 Hwf)|].
  split; [intros j Hj; apply lookup_snoc_other; exact Hj|].
  split; [reflexivity|]. split; [reflexivity|].
  unfold get_active; simpl.
  destruct (active_id (app_store a)) as [x|] eqn:Ex.
  - pose proof (active_below _ _ Hwf Ex) as Hx.
    rewrite lookup_snoc_other by lia.
    destruct Hwf as [Ha _]. unfold active_ok in Ha. rewrite Ex in Ha.
    destruct (lookup x (tables (app_store a))); [reflexivity|congruence].
  - rewrite lookup_fresh by exact (proj2 Hwf). reflexivity.
Qed.

(** X9 ([upload_excel]): an accepted file that parses answers 200 with
    the next id; the table is stored under the original file name, no
    other table changes, the temporary file stays on disk and the cached
    graph is dropped. *)
Theorem upload_excel_success
    (ingest : string -> option string -> result table) (a : app)
    (fn : string) (sheet : option string) (t : table) :
  store_wf (app_store a) ->
  fn <> ""%string ->
  In (lower (path_suffix fn)) allowed_suffixes ->
  ingest (tmp_name (w_tmp_counter (app_world a)) (lower (path_suffix fn)))
    sheet = Ok t ->
  snd (upload_excel_h ingest a (Some fn) sheet) =
    Response 200 (Some (next_id (app_store a))) /\
  lookup (next_id (app_store a))
    (tables (app_store (fst (upload_excel_h ingest a (Some fn) sheet)))) =
    Some {| tbl_name := fn; tbl_source := tbl_source t;
            tbl_columns := tbl_columns t; tbl_rows := tbl_rows t |} /\
  (forall j, j <> next_id (app_store a) ->
     lookup j (tables (app_store (fst (upload_excel_h ingest a (Some fn)
                                         sheet)))) =
     lookup j (tables (app_store a))) /\
  In (tmp_name (w_tmp_counter (app_world a)) (lower (path_suffix fn)))
    (w_files (app_world (fst (upload_excel_h ingest a (Some fn) sheet)))) /\
  app_graph (fst (upload_excel_h ingest a (Some fn) sheet)) = None.
Proof.
  intros Hwf Hfn Hsuf Hi.
  unfold upload_excel_h, upload_excel.
  destruct (String.eqb fn "") eqn:E0;
    [apply String.eqb_eq in E0; contradiction|].
  apply existsb_eqb_In in Hsuf. rewrite Hsuf. simpl negb. cbv iota.
  unfold app_store in *. rewrite Hi. unfold add_table. cbv beta iota zeta.
  cbn [fst snd Nat.eqb app_world app_graph w_store w_files].
  split; [reflexivity|].
  split.
  { rewrite lookup_set_table_name. cbn [tables next_id]. rewrite lookup_fresh by exact (proj2 Hwf).
    rewrite Nat.eqb_refl. reflexivity. }
  split.
  { intros j Hj. rewrite lookup_set_table_name. simpl.
    rewrite lookup_snoc_other by exact Hj.
    destruct (lookup j (tables (w_store (app_world a)))); [|reflexivity].
    apply Nat.eqb_neq in Hj. rewrite Hj. reflexivity. }
  split; [apply in_or_app; right; left; reflexivity|reflexivity].
Qed.

(** X10 ([upload_excel]): when the saved file does not parse, the
    handler answers 500, removes the temporary file it created and
    changes neither the tables nor the cached graph. *)
Theorem upload_excel_ingest_failure
    (ingest : string -> option string -> result table) (a : app)
    (fn : string) (sheet : option string) (e : error) :
  fn <> ""%string ->
  In (lower (path_suffix fn)) allowed_suffixes ->
  ingest (tmp_name (w_tmp_counter (app_world a)) (lower (path_suffix fn)))
    sheet = Err e ->
  ~ In (tmp_name (w_tmp_counter (app_world a)) (lower (path_suffix fn)))
      (w_files (app_world a)) ->
  upload_excel_h ingest a (Some fn) sheet =
    (mk_app (mk_world (app_store a) (w_files (app_world a))
                      (S (w_tmp_counter (app_world a))))
            (app_graph a),
     Response 500 None).
Proof.
  intros Hfn Hsuf Hi Hfresh.
  unfold upload_excel_h, upload_excel.
  destruct (String.eqb fn "") eqn:E0;
    [apply String.eqb_eq in E0; contradiction|].
  apply existsb_eqb_In in Hsuf. rewrite Hsuf. simpl negb. cbv iota.
  rewrite Hi. simpl.
  rewrite remove_app, (notin_remove _ _ _ Hfresh). simpl.
  destruct (string_dec _ _) as [He|Hne]; [|contradiction].
  rewrite app_nil_r. reflexivity.
Qed.

(** X11 ([chat], [chat_stream], [get_status]): with no table loaded, chat
    and the stream are refused with 400 before any graph is built or any
    state changes, and the status reports nothing loaded. *)
Theorem not_loaded_refused (invoke : option nat -> string -> py_result string)
    (events : list string) (a : app) (message : string) :
  tables (app_store a) = [] ->
  chat invoke a message = (a, HttpError 400) /\
  chat_stream events a = HttpError 400 /\
  get_status a = mk_status false None None None.
Proof.
  intro H. unfold chat, chat_stream, get_status, is_loaded. rewrite H.
  split; [reflexivity|split; reflexivity].
Qed.

(** X12 (the process state across any sequence of requests): the store
    stays well formed (the active id names a table, ids are below the
    counter), no id names two tables, and a cached agent graph was always
    built for the table that is active now. *)
Theorem serve_all_invariant (cfg : ExcelConfig) (value_error : error -> bool)
    (load_ingest : string -> option string -> py_result table)
    (upload_ingest : string -> option string -> result table)
    (invoke : option nat -> string -> py_result string)
    (rs : list request) :
  store_wf (app_store (serve_all cfg value_error load_ingest upload_ingest
                                 invoke init_app rs)) /\
  NoDup (map fst (tables (app_store (serve_all cfg value_error load_ingest
                                       upload_ingest invoke init_app rs)))) /\
  (app_graph (serve_all cfg value_error load_ingest upload_ingest invoke
                        init_app rs) = None \/
   app_graph (serve_all cfg value_error load_ingest upload_ingest invoke
                        init_app rs) =
   Some (active_id (app_store (serve_all cfg value_error load_ingest
                                         upload_ingest invoke init_app rs)))).
Proof.
  destruct (serve_all_inv cfg value_error load_ingest upload_ingest invoke rs
              init_app init_app_inv) as [[Hw Hn] Hg].
  split; [exact Hw|split; [exact Hn|exact Hg]].
Qed.

(** X13 ([chat]): in any reachable state with a table loaded, the message
    goes to the graph of the table that is active now (never a stale
    one), the graph stays cached for it, and the tables are untouched. *)
Theorem chat_uses_active_table (cfg : ExcelConfig)
    (value_error : error -> bool)
    (load_ingest : string -> option string -> py_result table)
    (upload_ingest : string -> option string -> result table)
    (invoke : option nat -> string -> py_result string)
    (rs : list request) (a : app) (message : string) :
  a = serve_all cfg value_error load_ingest upload_ingest invoke init_app rs ->
  is_loaded (app_store a) = true ->
  app_store (fst (chat invoke a message)) = app_store a /\
  app_graph (fst (chat invoke a message)) = Some (active_id (app_store a)) /\
  snd (chat invoke a message) =
    match invoke (active_id (app_store a)) message with
    | PyOk r => Reply r
    | PyRaise _ => HttpError 500
    end.
Proof.
  intros Ha Hl.
  assert (Hg : app_graph a = None \/
               app_graph a = Some (active_id (app_store a))).
  { subst a. exact (proj2 (serve_all_inv cfg value_error load_ingest
                             upload_ingest invoke rs init_app init_app_inv)). }
  unfold chat. rewrite Hl. simpl negb. cbv iota. unfold get_graph.
  destruct Hg as [Hg|Hg]; rewrite Hg; cbv zeta;
    destruct (invoke (active_id (app_store a)) message);
    (split; [reflexivity|split; [|reflexivity]]); simpl; auto.
Qed.

(** X14 ([get_status]): in any reachable state the status reports a load
    exactly when a table is held, an active id in the status always names
    a table whose structure is the one reported, and no active id comes
    with no active table. *)
Theorem get_status_consistent (cfg : ExcelConfig)
    (value_error : error -> bool)
    (load_ingest : string -> option string -> py_result table)
    (upload_ingest : string -> option string -> result table)
    (invoke : option nat -> string -> py_result string)
    (rs : list request) (a : app) :
  a = serve_all cfg value_error load_ingest upload_ingest invoke init_app rs ->
  (excel_loaded (get_status a) = false <-> tables (app_store a) = []) /\
  (forall id, active_table_id (get_status a) = Some id ->
     exists t, lookup id (tables (app_store a)) = Some t /\
               active_table (get_status a) = Some (structure_of t)) /\
  (active_table_id (get_status a) = None -> active_table (get_status a) = None) /\
  (excel_loaded (get_status a) = true ->
     status_tables (get_status a) = Some (list_tables (app_store a))).
Proof.
  intro Ha.
  assert (Hwf : store_wf (app_store a)).
  { subst a. exact (proj1 (proj1 (serve_all_inv cfg value_error load_ingest
                    upload_ingest invoke rs init_app init_app_inv))). }
  assert (Hl : is_loaded (app_store a) = false <-> tables (app_store a) = [])
    by (unfold is_loaded; destruct (tables (app_store a)); split; congruence).
  unfold get_status. destruct (is_loaded (app_store a)) eqn:El; simpl.
  - split; [split; [discriminate|intro H; apply Hl in H; congruence]|].
    split.
    { intros id Hid. destruct Hwf as [Hact _]. unfold active_ok in Hact.
      rewrite Hid in Hact.
      destruct (lookup id (tables (app_store a))) as [t|] eqn:Et;
        [|congruence].
      exists t. split; [reflexivity|]. unfold get_active.
      rewrite Hid, Et. reflexivity. }
    split; [intro Hn; unfold get_active; rewrite Hn; reflexivity|].
    intros _; reflexivity.
  - split; [split; [intros _; apply Hl; reflexivity|reflexivity]|].
    split; [intros id H; discriminate|].
    split; [reflexivity|]. intro H; discriminate.
Qed.

(** X15 ([list_tables]): in any reachable state a summary is flagged
    active only for the active id, and exactly one summary is flagged
    when a table is active (none otherwise). *)
Theorem list_tables_active_flag (cfg : ExcelConfig)
    (value_error : error -> bool)
    (load_ingest : string -> option string -> py_result table)
    (upload_ingest : string -> option string -> result table)
    (invoke : option nat -> string -> py_result string)
    (rs : list request) (a : app) :
  a = serve_all cfg value_error load_ingest upload_ingest invoke init_app rs ->
  (forall ts, In ts (list_tables (app_store a)) -> ts_is_active ts = true ->
     active_id (app_store a) = Some (ts_id ts)) /\
  List.length (filter ts_is_active (list_tables (app_store a))) =
    match active_id (app_store a) with Some _ => 1 | None => 0 end.
Proof.
  intro Ha.
  destruct (serve_all_inv cfg value_error load_ingest upload_ingest invoke rs
              init_app init_app_inv) as [[Hwf Hn] _].
  rewrite <- Ha in Hwf, Hn.
  split.
  - intros ts Hts Hact. unfold list_tables in Hts.
    apply in_map_iff in Hts as [[k u] [<- _]]. simpl in *.
    destruct (active_id (app_store a)) as [x|]; [|discriminate].
    simpl in Hact. apply Nat.eqb_eq in Hact. subst. reflexivity.
  - unfold list_tables. rewrite filter_map_length. simpl.
    destruct (active_id (app_store a)) as [x|] eqn:Ex.
    + simpl. rewrite count_flag by exact Hn.
      destruct Hwf as [Hact _]. unfold active_ok in Hact. rewrite Ex in Hact.
      destruct (lookup x (tables (app_store a))); [reflexivity|congruence].
    + simpl. clear. induction (tables (app_store a)); simpl; auto.
Qed.

(** X16 ([reset]): afterwards nothing is loaded, every id is unknown to
    [set_active_table] and [delete_table], the id counter is kept (ids are
    not reused), uploaded temporary files stay on disk and the cached
    graph is dropped. *)
Theorem reset_outcome (cfg : ExcelConfig) (a : app) :
  get_status (reset_h a) = mk_status false None None None /\
  (forall id, set_active_table cfg (reset_h a) id = (reset_h a, HttpError 404)) /\
  (forall id, delete_table (reset_h a) id = (reset_h a, HttpError 404)) /\
  next_id (app_store (reset_h a)) = next_id (app_store a) /\
  w_files (app_world (reset_h a)) = w_files (app_world a) /\
  app_graph (reset_h a) = None.
Proof.
  split; [reflexivity|].
  split; [intro id; reflexivity|].
  split; [intro id; reflexivity|].
  split; [reflexivity|split; reflexivity].
Qed.

(** X17 (all handlers): the id counter never goes down, and a table id
    that is absent now and appears later is at least the current counter:
    an id once deleted (or dropped by a reset) is never given out again. *)
Theorem ids_never_reused (cfg : ExcelConfig) (value_error : error -> bool)
    (load_ingest : string -> option string -> py_result table)
    (upload_ingest : string -> option string -> result table)
    (invoke : option nat -> string -> py_result string)
    (a : app) (rs : list request) :
  next_id (app_store a) <=
    next_id (app_store (serve_all cfg value_error load_ingest upload_ingest
                                  invoke a rs)) /\
  (forall id, lookup id (tables (app_store a)) = None ->
   lookup id (tables (app_store (serve_all cfg value_error load_ingest
                                  upload_ingest invoke a rs))) <> None ->
   next_id (app_store a) <= id).
Proof.
  split; [apply serve_all_next_mono|].
  revert a; induction rs as [|r rs IH]; intros a id Hn Hl; simpl in Hl;
    [contradiction|].
  set (a' := serve cfg value_error load_ingest upload_ingest invoke a r) in *.
  destruct (lookup id (tables (app_store a'))) eqn:E.
  - apply (serve_new_ids cfg value_error load_ingest upload_ingest invoke a r);
      [fold a'; rewrite E; discriminate|exact Hn].
  - pose proof (serve_next_mono cfg value_error load_ingest upload_ingest
                  invoke a r) as Hm. fold a' in Hm.
    specialize (IH a' id E Hl). lia.
Qed.

(** *** Witnesses, on the example process state [ex_app] (table1 and
    table2 loaded, table1 active) *)

Lemma join_tables_h_error_witness :
  join_tables_h ex_value_error ex_app 0 1 ["id"%string] [] "inner" "j" =
    (ex_app, HttpError 400) /\
  ex_app = ex_app.
Proof.
  assert (H : join_tables_h ex_value_error ex_app 0 1 ["id"%string] []
                "inner" "j" = (ex_app, HttpError 400))
    by (vm_compute; reflexivity).
  split; [exact H|].
  exact (proj1 (join_tables_h_error ex_value_error ex_app ex_app 0 1
                  ["id"%string] [] "inner" "j" 400 H)).
Defined.

Lemma join_tables_h_success_witness :
  store_wf (app_store ex_app) /\
  active_id (app_store (fst (join_tables_h ex_value_error ex_app 0 1
                               ["id"%string] ["id"%string] "inner" "joined"))) =
    active_id (app_store ex_app).
Proof.
  assert (Hwf : store_wf (app_store ex_app)).
  { vm_compute. split; [intro H; discriminate H|repeat constructor]. }
  assert (Hj : join_tables_h ex_value_error ex_app 0 1 ["id"%string]
                 ["id"%string] "inner" "joined" =
               (fst (join_tables_h ex_value_error ex_app 0 1 ["id"%string]
                       ["id"%string] "inner" "joined"),
                Reply (2, structure_of (join_table ex_table1 ex_table2
                                          ["id"%string] ["id"%string] JInner
                                          "joined"),
                       list_tables (app_store
                         (fst (join_tables_h ex_value_error ex_app 0 1
                                 ["id"%string] ["id"%string] "inner"
                                 "joined"))))))
    by (vm_compute; reflexivity).
  split; [exact Hwf|].
  exact (proj1 (proj2 (join_tables_h_success ex_value_error ex_app _ 0 1
                         ["id"%string] ["id"%string] "inner" "joined" 2 _ _
                         Hwf Hj))).
Defined.

Lemma load_excel_failure_witness :
  load_excel default_ExcelConfig ex_load_ingest ex_app "missing.xlsx" None =
    (ex_app, HttpError 404).
Proof.
  exact (proj1 (load_excel_failure default_ExcelConfig ex_load_ingest ex_app
                  "missing.xlsx" None FileNotFoundError
                  ltac:(vm_compute; reflexivity))).
Defined.

Lemma load_excel_success_witness :
  snd (load_excel default_ExcelConfig ex_load_ingest ex_app "table2.xlsx" None) =
    Reply (2, structure_of ex_table2,
           Some (preview_default default_ExcelConfig ex_table1),
           list_tables (app_store (fst (load_excel default_ExcelConfig
                                          ex_load_ingest ex_app
                                          "table2.xlsx" None)))).
Proof.
  assert (Hwf : store_wf (app_store ex_app)).
  { vm_compute. split; [intro H; discriminate H|repeat constructor]. }
  exact (proj2 (proj2 (proj2 (proj2
           (load_excel_success default_ExcelConfig ex_load_ingest ex_app
              "table2.xlsx" None ex_table2 Hwf
              ltac:(vm_compute; reflexivity)))))).
Defined.

Lemma upload_excel_success_witness :
  snd (upload_excel_h ex_upload_ingest ex_app (Some "report.XLSX"%string) None) =
    Response 200 (Some 2) /\
  lookup 2 (tables (app_store (fst (upload_excel_h ex_upload_ingest ex_app
                                      (Some "report.XLSX"%string) None)))) =
    Some {| tbl_name := "report.XLSX"; tbl_source := tbl_source ex_table2;
            tbl_columns := tbl_columns ex_table2;
            tbl_rows := tbl_rows ex_table2 |}.
Proof.
  assert (Hwf : store_wf (app_store ex_app)).
  { vm_compute. split; [intro H; discriminate H|repeat constructor]. }
  destruct (upload_excel_success ex_upload_ingest ex_app "report.XLSX" None
              ex_table2 Hwf ltac:(discriminate)
              ltac:(vm_compute; left; reflexivity)
              ltac:(vm_compute; reflexivity)) as [H1 [H2 _]].
  split; [exact H1|exact H2].
Defined.

Lemma upload_excel_ingest_failure_witness :
  upload_excel_h (fun _ _ => Err IngestionError) ex_app
    (Some "data.xls"%string) None =
    (mk_app (mk_world (app_store ex_app) (w_files (app_world ex_app))
                      (S (w_tmp_counter (app_world ex_app))))
            (app_graph ex_app),
     Response 500 None).
Proof.
  exact (upload_excel_ingest_failure (fun _ _ => Err IngestionError) ex_app
           "data.xls" None IngestionError ltac:(discriminate)
           ltac:(vm_compute; right; left; reflexivity)
           ltac:(reflexivity) ltac:(vm_compute; intros [])).
Defined.

Lemma not_loaded_refused_witness :
  chat ex_invoke init_app "hello" = (init_app, HttpError 400).
Proof.
  exact (proj1 (not_loaded_refused ex_invoke [] init_app "hello"
                  ltac:(reflexivity))).
Defined.

Lemma chat_uses_active_table_witness :
  snd (chat ex_invoke ex_app "hello") = Reply "hello"%string.
Proof.
  exact (proj2 (proj2 (chat_uses_active_table default_ExcelConfig
           ex_value_error ex_load_ingest ex_upload_ingest ex_invoke
           ex_requests ex_app "hello" ltac:(reflexivity)
           ltac:(vm_compute; reflexivity)))).
Defined.

Lemma get_status_consistent_witness :
  exists t, lookup 0 (tables (app_store ex_app)) = Some t /\
            active_table (get_status ex_app) = Some (structure_of t).
Proof.
  exact (proj1 (proj2 (get_status_consistent default_ExcelConfig
           ex_value_error ex_load_ingest ex_upload_ingest ex_invoke
           ex_requests ex_app ltac:(reflexivity)))
           0 ltac:(vm_compute; reflexivity)).
Defined.

Lemma list_tables_active_flag_witness :
  List.length (filter ts_is_active (list_tables (app_store ex_app))) = 1.
Proof.
  exact (proj2 (list_tables_active_flag default_ExcelConfig
           ex_value_error ex_load_ingest ex_upload_ingest ex_invoke
           ex_requests ex_app ltac:(reflexivity))).
Defined.

End Extras.

Module ConfigExtras.
Import Config ConfigFacts ConfigState Examples.
Local Open Scope string_scope.

(** X18 ([_expand_env_vars]): a value with no closing brace has no
    placeholder and comes back unchanged, whatever the environment holds
    and whichever characters count as word characters (a lone "$", "${"
    or "${NAME" included). *)
Theorem expand_env_vars_no_brace (is_word_char : N -> bool) (e : env)
    (value : text) :
  ~ In rbrace value ->
  _expand_env_vars is_word_char e value = value.
Proof.
  intro H. unfold _expand_env_vars. rewrite expand_no_close by exact H.
  reflexivity.
Qed.

(** X19 ([_process_config_dict]): the keys are kept in order, strings are
    expanded, and lists are copied as they are (strings inside a list are
    not expanded). *)
Theorem process_config_dict_shape (is_word_char : N -> bool) (e : env)
    (config : list (text * cvalue)) :
  map fst (_process_config_dict is_word_char e config) = map fst config /\
  (forall k v, In (k, CStr v) config ->
     In (k, CStr (_expand_env_vars is_word_char e v))
        (_process_config_dict is_word_char e config)) /\
  (forall k l, In (k, CList l) config ->
     In (k, CList l) (_process_config_dict is_word_char e config)).
Proof.
  unfold _process_config_dict. split; [|split].
  - rewrite map_map. simpl. reflexivity.
  - intros k v H.
    exact (in_map (fun kv => (fst kv, process_value is_word_char e (snd kv)))
             _ _ H).
  - intros k l H.
    exact (in_map (fun kv => (fst kv, process_value is_word_char e (snd kv)))
             _ _ H).
Qed.

(** X20 ([load_config]): without a path, ./config.yaml is preferred and
    the package's config.yaml is used only when it is missing; a path that
    is given is never replaced by the search, so a missing (or empty) one
    gives the defaults. *)
Theorem load_config_search (is_word_char : N -> bool) (e : env)
    (exists_ : text -> bool) (read : text -> list (text * cvalue))
    (package_config : text) :
  (exists_ (txt "config.yaml") = true ->
   load_config is_word_char e exists_ read package_config None =
   FromFile (_process_config_dict is_word_char e (read (txt "config.yaml")))) /\
  (exists_ (txt "config.yaml") = false ->
   load_config is_word_char e exists_ read package_config None =
   load_config is_word_char e exists_ read package_config (Some package_config)) /\
  (forall p, exists_ p = false ->
   load_config is_word_char e exists_ read package_config (Some p) = Defaults) /\
  load_config is_word_char e exists_ read package_config (Some (txt "")) = Defaults.
Proof.
  unfold load_config. split; [|split; [|split]].
  - intro H. simpl. rewrite H. simpl. rewrite H. reflexivity.
  - intro H. simpl. rewrite H.
    destruct (exists_ package_config) eqn:Ep; [rewrite Ep; reflexivity|].
    rewrite andb_false_r. reflexivity.
  - intros p H. rewrite H, andb_false_r. reflexivity.
  - reflexivity.
Qed.

(** X21 ([get_config] / [set_config]): after [set_config] the next
    [get_config] returns that configuration whatever the files hold, and
    once a configuration is cached later calls return it without loading
    again. *)
Theorem config_cache (load1 load2 config : AppConfig)
    (current : option AppConfig) :
  get_config load1 (set_config config current) = (Some config, config) /\
  get_config load2 (fst (get_config load1 current)) = get_config load1 current.
Proof.
  split; [reflexivity|]. destruct current; reflexivity.
Qed.

Lemma expand_env_vars_no_brace_witness :
  _expand_env_vars ex_is_word ex_env (txt "$HOME and ${HOME")
  = txt "$HOME and ${HOME".
Proof.
  apply expand_env_vars_no_brace.
  intro H. vm_compute in H.
  repeat (destruct H as [H|H]; [discriminate H|]). exact H.
Defined.

End ConfigExtras.
